(** * The clustering service: encoding, composition, similarity, taxonomy

    A shallow embedding of [clustering-service/encoding.py],
    [clustering-service/clustering.py] and the [/cluster] endpoint of
    [clustering-service/main.py].

    Numbers are real numbers: a finite Python float is read as the real it
    denotes and rounding is not modelled, so statements about computed
    numbers carry a tolerance and, where a float computation would leave the
    range in which rounding is all that happens, a bound on the quantities
    involved.  A float that is [inf] or [nan] has no real to stand for it:
    where the code obtains one from its input the model stops with
    [Unmodelled].  Python exceptions are values of [exn] carried by
    [result].  The calls into SciPy ([linkage], [fcluster]) are parameters
    of the development; NumPy and scikit-learn array operations are written
    out on lists of rows, with the guards scikit-learn applies to small
    scales. *)

From Stdlib Require Import Reals Lra Lia ZArith Ascii.
From stdpp Require Import gmap strings list pretty sorting.

(** ** Exceptions *)

(** [Unmodelled] is no Python exception: it marks the point where the code
    goes on with a float that is [inf] or [nan], which the model does not
    follow. *)
Inductive exn : Type :=
  | ValueError (msg : string)
  | KeyError (key : string)
  | TypeError
  | IndexError
  | OverflowError
  | Unmodelled.

Inductive result (A : Type) : Type :=
  | Ok (a : A)
  | Raise (e : exn).
Arguments Ok {A} a.
Arguments Raise {A} e.

#[global] Instance result_ret : MRet result := λ A a, Ok a.
#[global] Instance result_bind : MBind result := λ A B f r,
  match r with
  | Ok a => f a
  | Raise e => Raise e
  end.

Definition is_Ok {A} (r : result A) : Prop := ∃ a, r = Ok a.

Fixpoint mapR {A B} (f : A → result B) (l : list A) : result (list B) :=
  match l with
  | [] => Ok []
  | x :: l' => y ← f x; ys ← mapR f l'; Ok (y :: ys)
  end.

(** The comparisons of real numbers the code branches on. *)
#[global] Instance Rlt_decision (x y : R) : Decision (x < y)%R := Rlt_dec x y.
#[global] Instance Rle_decision (x y : R) : Decision (x <= y)%R := Rle_dec x y.

(** ** Data model *)

(** A JSON attribute value as Python sees it.  [VNone] is [None]; a key that
    a record does not carry reads as [VNone] too ([dict.get]).  [VInt] is an
    [int] of any size, [VFloat] a finite [float], [VNonFinite] a [float]
    that is [inf] or [nan].  [VOther] is a list or an object, which none of
    the [isinstance] tests of [encode_attributes] matches; its flag says
    whether it is non-empty. *)
Inductive value : Type :=
  | VNone
  | VBool (b : bool)
  | VInt (z : Z)
  | VFloat (x : R)
  | VNonFinite
  | VStr (s : string)
  | VOther (nonempty : bool).

(** A record of the batch, with its [id]; the endpoint always passes an
    [attributes] dictionary, possibly empty.  The entries of the embedding
    are finite floats. *)
Record conversation : Type := Conversation {
  conv_id : string;
  semantic_embedding : list R;
  attributes : gmap string value;
  outcome : string
}.

(** The weight dictionary, with its three keys present. *)
Record weights : Type := Weights {
  w_semantic : R;
  w_attributes : R;
  w_outcome : R
}.

(** Matrices are lists of rows. *)
Abbreviation matrix := (list (list R)).

Definition zeros (n m : nat) : matrix := replicate n (replicate m 0%R).

Definition ncols (X : matrix) : nat :=
  match X with
  | [] => 0
  | r :: _ => length r
  end.

Definition entry (X : matrix) (i j : nat) : R := nth j (nth i X []) 0%R.

(** [transpose n cols] turns a list of columns of height [n] into [n] rows. *)
Definition transpose (n : nat) (cols : matrix) : matrix :=
  fmap (λ i, fmap (λ c, nth i c 0%R) cols) (seq 0 n).

(** ** Strings *)

Definition lower_ascii (c : ascii) : ascii :=
  let n := nat_of_ascii c in
  if (65 <=? n)%nat && (n <=? 90)%nat then ascii_of_nat (n + 32) else c.

(** [str.lower] on the ASCII letters.  No character outside ASCII lowers to a
    letter of the three outcome labels, so [encode_outcome] is not affected
    by the difference. *)
Fixpoint lower (s : string) : string :=
  match s with
  | EmptyString => EmptyString
  | String c s' => String (lower_ascii c) (lower s')
  end.

Definition str_le (s1 s2 : string) : Prop := String.leb s1 s2 = true.

#[global] Instance str_le_dec : RelDecision str_le.
Proof. intros s1 s2. unfold str_le. apply _. Defined.

(** [sorted(list(s))] for a set of strings. *)
Definition sorted_strings (s : gset string) : list string :=
  merge_sort str_le (elements s).

(** ** encoding.py: encode_outcome *)

Definition encode_outcome (o : string) : R :=
  let l := lower o in
  if decide (l = "satisfied") then 1%R
  else if decide (l = "unsatisfied") then 0%R
  else if decide (l = "unclear") then (1 / 2)%R
  else (1 / 2)%R.

(** ** encoding.py: encode_attributes *)

(** [conv['attributes'].get(key)] *)
Definition get_attr (c : conversation) (key : string) : value :=
  default VNone (attributes c !! key).

(** The truth value Python gives [val] in [1.0 if val else 0.0]. *)
Definition truthy (v : value) : bool :=
  match v with
  | VNone => false
  | VBool b => b
  | VInt z => negb (z =? 0)%Z
  | VFloat x => if Req_dec_T x 0 then false else true
  | VNonFinite => true
  | VStr s => if decide (s = "") then false else true
  | VOther nonempty => nonempty
  end.

(** *** Python's [float] *)

(** The least magnitude that rounds to [inf]: halfway between the largest
    double and [2^1024]. *)
Definition float_limit : Z := (2 ^ 1024 - 2 ^ 970)%Z.

(** [m * 10^e] is the magnitude of a finite double, up to rounding. *)
Definition finite_decimal (m e : Z) : bool :=
  if (0 <=? e)%Z then (Z.abs m * 10 ^ e <? float_limit)%Z
  else (Z.abs m <? float_limit * 10 ^ (- e))%Z.

Definition decimal_value (m e : Z) : R :=
  if (0 <=? e)%Z then IZR (m * 10 ^ e) else (IZR m / IZR (10 ^ (- e)))%R.

Definition digit_of (c : ascii) : option Z :=
  let n := nat_of_ascii c in
  if (48 <=? n)%nat && (n <=? 57)%nat then Some (Z.of_nat (n - 48)) else None.

Definition is_digit (c : ascii) : bool := bool_decide (is_Some (digit_of c)).

(** [Py_ISSPACE]: the blanks [float] strips from an ASCII text. *)
Definition py_isspace (c : ascii) : bool :=
  let n := nat_of_ascii c in
  ((9 <=? n)%nat && (n <=? 13)%nat) || (n =? 32)%nat.

(** Characters on which the model does not follow [float]: outside ASCII
    Python also reads other decimal digits and blanks, and the separators
    28 to 31 count as blanks in some texts only. *)
Definition beyond_ascii (c : ascii) : bool :=
  let n := nat_of_ascii c in
  (128 <=? n)%nat || ((28 <=? n)%nat && (n <=? 31)%nat).

(** Reads the longest run of decimal digits at the head of [l]: the value of
    [acc] followed by these digits, the number of digits read, and the rest
    of the text. *)
Fixpoint read_digits (l : list ascii) (acc : Z) (n : nat) : Z * nat * list ascii :=
  match l with
  | [] => (acc, n, l)
  | c :: l' =>
      match digit_of c with
      | Some d => read_digits l' (10 * acc + d) (S n)
      | None => (acc, n, l)
      end
  end.

(** An underscore stands between two digits. *)
Fixpoint underscores_ok (prev : option ascii) (l : list ascii) : bool :=
  match l with
  | [] => negb (bool_decide (prev = Some "_"%char))
  | c :: l' =>
      (if bool_decide (c = "_"%char) then bool_decide (is_Some (prev ≫= digit_of))
       else if bool_decide (prev = Some "_"%char) then is_digit c
       else true)
      && underscores_ok (Some c) l'
  end.

(** A text without sign, blanks and underscores as a decimal numeral:
    digits, a point, digits, with a digit somewhere, then an exponent with
    at least one digit.  The result is the pair [(m, e)] of the numeral
    [m * 10^e]. *)
Definition parse_decimal (l : list ascii) : option (Z * Z) :=
  let '(ip, ni, r1) := read_digits l 0 0 in
  let '(m, nf, r2) :=
    match r1 with
    | "."%char :: r => read_digits r ip 0
    | _ => (ip, 0%nat, r1)
    end in
  if (ni + nf =? 0)%nat then None
  else
    match r2 with
    | [] => Some (m, - Z.of_nat nf)%Z
    | c :: r3 =>
        if bool_decide (c = "e"%char) || bool_decide (c = "E"%char) then
          let '(sgn, r4) :=
            match r3 with
            | "-"%char :: r => ((-1)%Z, r)
            | "+"%char :: r => (1%Z, r)
            | _ => (1%Z, r3)
            end in
          let '(ex, ne, r5) := read_digits r4 0 0 in
          if (ne =? 0)%nat then None
          else
            match r5 with
            | [] => Some (m, sgn * ex - Z.of_nat nf)%Z
            | _ :: _ => None
            end
        else None
    end.

Fixpoint dropwhile_ascii (l : list ascii) : list ascii :=
  match l with
  | [] => []
  | c :: l' => if py_isspace c then dropwhile_ascii l' else l
  end.

(** What [float(s)] does on a text. *)
Inductive float_text : Type :=
  | FloatIs (x : R)      (* returns the finite float [x] *)
  | FloatError           (* raises [ValueError] *)
  | FloatBeyond.         (* returns [inf] or [nan], or the text is not followed *)

(** [float(s)] for a text [s]: blanks at both ends are stripped, single
    underscores between digits are dropped, then a sign and a decimal
    numeral with an optional exponent, or one of [inf], [infinity], [nan] in
    any letter case, must fill the text.  A numeral too large for a double
    reads as [inf]. *)
Definition float_of_str (s : string) : float_text :=
  let l := String.list_ascii_of_string s in
  if existsb beyond_ascii l then FloatBeyond
  else
    let l := reverse (dropwhile_ascii (reverse (dropwhile_ascii l))) in
    if negb (underscores_ok None l) then FloatError
    else
      let l := filter (λ c, c ≠ "_"%char) l in
      let '(neg, body) :=
        match l with
        | "-"%char :: r => (true, r)
        | "+"%char :: r => (false, r)
        | _ => (false, l)
        end in
      let word := lower (String.string_of_list_ascii body) in
      if bool_decide (word = "inf") || bool_decide (word = "infinity")
         || bool_decide (word = "nan")
      then FloatBeyond
      else
        match parse_decimal body with
        | None => FloatError
        | Some (m, e) =>
            if finite_decimal m e
            then FloatIs (decimal_value (if neg then - m else m)%Z e)
            else FloatBeyond
        end.

(** [float(val)] *)
Definition py_float (v : value) : result R :=
  match v with
  | VNone => Raise TypeError
  | VBool b => Ok (if b then 1 else 0)%R
  | VInt z =>
      if (Z.abs z <? float_limit)%Z then Ok (IZR z) else Raise OverflowError
  | VFloat x => Ok x
  | VNonFinite => Raise Unmodelled
  | VStr s =>
      match float_of_str s with
      | FloatIs x => Ok x
      | FloatError => Raise (ValueError "could not convert string to float")
      | FloatBeyond => Raise Unmodelled
      end
  | VOther _ => Raise TypeError
  end.

(** [val == unique_val] where [unique_val] is a text. *)
Definition eq_text (v : value) (u : string) : bool :=
  match v with
  | VStr s => bool_decide (s = u)
  | _ => false
  end.

Inductive attr_type : Type := Boolean | Numerical | Categorical.

(** The inner loop of the type detection: the first value of [key] that is
    not [None], in record order. *)
Fixpoint first_non_none (key : string) (convs : list conversation) : option value :=
  match convs with
  | [] => None
  | c :: convs' =>
      match get_attr c key with
      | VNone => first_non_none key convs'
      | v => Some v
      end
  end.

(** One round of the outer loop: the [isinstance] chain on that value,
    followed by [break]. *)
Definition detect_key (convs : list conversation)
    (st : gmap string attr_type * gmap string (gset string)) (key : string)
    : gmap string attr_type * gmap string (gset string) :=
  let '(attribute_types, categorical_values) := st in
  match first_non_none key convs with
  | Some (VBool _) => (<[key := Boolean]> attribute_types, categorical_values)
  | Some (VInt _) | Some (VFloat _) | Some VNonFinite =>
      (<[key := Numerical]> attribute_types, categorical_values)
  | Some (VStr s) =>
      (<[key := Categorical]> attribute_types,
       <[key := {[ s ]} ∪ default ∅ (categorical_values !! key)]> categorical_values)
  | _ => st
  end.

Definition detect_types (convs : list conversation) (keys : list string)
    : gmap string attr_type * gmap string (gset string) :=
  foldl (detect_key convs) (∅, ∅) keys.

Definition bool_column (key : string) (convs : list conversation) : list R :=
  fmap (λ c, if truthy (get_attr c key) then 1%R else 0%R) convs.

Definition num_column (key : string) (convs : list conversation) : result (list R) :=
  mapR (λ c, match get_attr c key with
             | VNone => Ok 0%R
             | v => py_float v
             end) convs.

Definition onehot_column (key u : string) (convs : list conversation) : list R :=
  fmap (λ c, if eq_text (get_attr c key) u then 1%R else 0%R) convs.

(** The columns and names one key appends to [feature_vectors] and
    [feature_names]. *)
Definition encode_key (attribute_types : gmap string attr_type)
    (categorical_values : gmap string (gset string))
    (convs : list conversation) (key : string) : result (matrix * list string) :=
  match default Categorical (attribute_types !! key) with
  | Boolean => Ok ([bool_column key convs], [key])
  | Numerical => col ← num_column key convs; Ok ([col], [key])
  | Categorical =>
      match categorical_values !! key with
      | None => Raise (KeyError key)
      | Some vals =>
          let unique_values := sorted_strings vals in
          Ok (fmap (λ u, onehot_column key u convs) unique_values,
              fmap (λ u, key +:+ "=" +:+ u) unique_values)
      end
  end.

Fixpoint encode_keys (attribute_types : gmap string attr_type)
    (categorical_values : gmap string (gset string))
    (convs : list conversation) (keys : list string) : result (matrix * list string) :=
  match keys with
  | [] => Ok ([], [])
  | key :: keys' =>
      '(cols, names) ← encode_key attribute_types categorical_values convs key;
      '(cols', names') ← encode_keys attribute_types categorical_values convs keys';
      Ok (cols ++ cols', names ++ names')
  end.

(** *** StandardScaler *)

Definition Rsum (l : list R) : R := foldr Rplus 0%R l.

Definition mean (l : list R) : R := (Rsum l / INR (length l))%R.

Definition variance (l : list R) : R :=
  let m := mean l in
  (Rsum (fmap (λ x, (x - m) * (x - m)) l) / INR (length l))%R.

(** The machine epsilon of a double, [2^-52]. *)
Definition float_eps : R := (/ 4503599627370496)%R.

(** [_handle_zeros_in_scale(scale, constant_mask)]: scikit-learn replaces a
    scale that the mask flags by one. *)
Definition handle_zeros_in_scale (s : R) (constant_mask : bool) : R :=
  if constant_mask then 1%R else s.

(** [_is_constant_feature(var, mean, n_samples)]: the scaler takes a column
    for constant when its variance is within the error bound of the
    variance computation; a column of equal values is one such. *)
Definition is_constant_feature (var m : R) (n : nat) : bool :=
  bool_decide
    (var <= INR n * float_eps * var
            + (INR n * m * float_eps) * (INR n * m * float_eps))%R.

Definition scale_column (l : list R) : list R :=
  let m := mean l in
  let s := handle_zeros_in_scale (sqrt (variance l))
             (is_constant_feature (variance l) m (length l)) in
  fmap (λ x, (x - m) / s)%R l.

(** [StandardScaler().fit_transform(X)]: every column of [X] is centred and
    divided by its standard deviation, or by one if the scaler takes it for
    constant. *)
Definition fit_transform (X : matrix) : matrix :=
  transpose (length X) (fmap scale_column (transpose (ncols X) X)).

Definition all_keys (convs : list conversation) : gset string :=
  ⋃ ((λ c, dom (attributes c)) <$> convs).

Definition encode_attributes (convs : list conversation) : result (matrix * list string) :=
  match convs with
  | [] => Ok ([], [])
  | _ :: _ =>
      if decide (all_keys convs = ∅) then Ok (zeros (length convs) 1, [])
      else
        let keys := sorted_strings (all_keys convs) in
        let '(attribute_types, categorical_values) := detect_types convs keys in
        '(feature_vectors, feature_names) ←
          encode_keys attribute_types categorical_values convs keys;
        match feature_vectors with
        | [] => Ok (zeros (length convs) 1, [])
        | _ :: _ =>
            Ok (fit_transform (transpose (length convs) feature_vectors), feature_names)
        end
  end.

(** ** encoding.py: create_weighted_vectors *)

(** The guard [1e-8] added to every norm. *)
Definition epsilon : R := (/ 100000000)%R.

Definition dot (a b : list R) : R := Rsum (zip_with Rmult a b).

(** [np.linalg.norm] of one row. *)
Definition l2norm (a : list R) : R := sqrt (dot a a).

(** One row of [X / (np.linalg.norm(X, axis=1, keepdims=True) + 1e-8)]. *)
Definition normalize_row (r : list R) : list R :=
  (λ x, x / (l2norm r + epsilon))%R <$> r.

Definition normalize_rows (X : matrix) : matrix := normalize_row <$> X.

Definition scale_matrix (w : R) (X : matrix) : matrix :=
  (λ r : list R, Rmult w <$> r) <$> X.

(** [np.concatenate([A, B, C], axis=1)] on blocks with the same number of
    rows, the only way the pipeline calls it. *)
Definition concatenate3 (A B C : matrix) : matrix :=
  zip_with app A (zip_with app B C).

Definition create_weighted_vectors (semantic_embeddings encoded_attributes
    outcome_encodings : matrix) (w : weights) : matrix :=
  let n_conversations := length semantic_embeddings in
  let semantic_norm := normalize_rows semantic_embeddings in
  let attr_norm :=
    if (0 <? ncols encoded_attributes)%nat then normalize_rows encoded_attributes
    else zeros n_conversations 1 in
  let outcome_norm := normalize_rows outcome_encodings in
  let weighted_semantic := scale_matrix (w_semantic w) semantic_norm in
  let weighted_attributes := scale_matrix (w_attributes w) attr_norm in
  let weighted_outcome := scale_matrix (w_outcome w) outcome_norm in
  concatenate3 weighted_semantic weighted_attributes weighted_outcome.

(** ** sklearn: cosine_similarity *)

(** The entries are the exact dot products of the normalised rows; the
    code's entries are these up to rounding. *)

(** [normalize(X)]: every row divided by its norm; a norm below ten machine
    epsilons, zero included, is replaced by one, so such a row is left as it
    is. *)
Definition sk_normalize_row (r : list R) : list R :=
  (λ x, x / handle_zeros_in_scale (l2norm r)
              (bool_decide (l2norm r < 10 * float_eps)))%R <$> r.

Definition sk_normalize (X : matrix) : matrix := sk_normalize_row <$> X.

Definition cosine_similarity (X : matrix) : matrix :=
  let Xn := sk_normalize X in
  (λ a, (λ b, dot a b) <$> Xn) <$> Xn.

(** ** NumPy and SciPy helpers used by clustering.py *)

(** All rows have one length. *)
Definition homogeneous (rows : matrix) : Prop :=
  Forall (λ r, length r = ncols rows) rows.

(** [np.array(rows)] for a list of lists of floats: rows of different
    lengths have no common shape, which NumPy 1.24 and later refuse with a
    [ValueError]. *)
Definition np_array (rows : matrix) : result matrix :=
  if decide (homogeneous rows) then Ok rows
  else Raise (ValueError "inhomogeneous shape").

(** [squareform(D, checks=False)]: the strict upper triangle of [D], row by
    row. *)
Definition squareform (D : matrix) : list R :=
  mjoin (imap (λ i r, drop (S i) r) D).

(** [np.unique(labels)]: the distinct labels in ascending order. *)
Definition np_unique (labels : list Z) : list Z :=
  merge_sort Z.le (remove_dups labels).

(** [np.where(labels == c)[0]]: the positions that carry label [c]. *)
Definition np_where (labels : list Z) (c : Z) : list nat :=
  filter (λ i, labels !! i = Some c) (seq 0 (length labels)).

(** [[l[i] for i in idxs]]; an index out of range raises. *)
Definition getitems {A} (l : list A) (idxs : list nat) : result (list A) :=
  mapR (λ i, match l !! i with
             | Some x => Ok x
             | None => Raise IndexError
             end) idxs.

(** [D[np.ix_(idxs, idxs)]] *)
Definition submatrix (D : matrix) (idxs : list nat) : result matrix :=
  rows ← getitems D idxs; mapR (λ r, getitems r idxs) rows.

(** [idxs[mask]] for a boolean mask, which must be as long as [idxs]. *)
Definition mask_select (idxs : list nat) (mask : list bool) : result (list nat) :=
  if decide (length mask = length idxs)
  then Ok (fst <$> filter (λ p, snd p = true) (zip idxs mask))
  else Raise IndexError.

(** ** clustering.py: perform_clustering *)

(** A requested cluster count as Python holds it.  [IntCount] is an [int]
    (in a request, a JSON integer, or [true] and [false], which are the ints
    1 and 0); [FloatCount] a finite [float] and [NonFiniteCount] one that is
    [inf] or [nan]; [OtherCount] is [None], a text, a list or a dictionary,
    which [min] cannot compare with an [int]. *)
Inductive count : Type :=
  | IntCount (k : Z)
  | FloatCount (x : R)
  | NonFiniteCount
  | OtherCount.

Coercion IntCount : Z >-> count.

(** [min(count, m)] for an [int] [m]: the count unless [m] is smaller.  A
    float count that [min] returns goes to SciPy as it is, which the model
    does not follow. *)
Definition py_min (c : count) (m : Z) : result Z :=
  match c with
  | IntCount k => Ok (Z.min k m)
  | FloatCount x => if decide (IZR m < x)%R then Ok m else Raise Unmodelled
  | NonFiniteCount => Raise Unmodelled
  | OtherCount => Raise TypeError
  end.

(** The three values [perform_clustering] returns. *)
Record clustering : Type := Clustering {
  high_level_clusters : gmap string (list string);
  subclusters : gmap string (gmap string (list string));
  similarity_matrix : matrix
}.

Section PerformClustering.

(** SciPy's [linkage(y, method='ward')] and [fcluster(Z, t,
    criterion='maxclust')]: the merge hierarchy is opaque, the flat cut
    returns one integer label per observation. *)
Variable linkage_matrix : Type.
Variable linkage : list R → linkage_matrix.
Variable fcluster : linkage_matrix → Z → list Z.

(** The loop that fills [high_level_clusters]. *)
Fixpoint high_level_loop (conversation_ids : list string) (high_level_labels : list Z)
    (cluster_ids : list Z) (acc : gmap string (list string))
    : result (gmap string (list string)) :=
  match cluster_ids with
  | [] => Ok acc
  | cluster_id :: rest =>
      let cluster_indices := np_where high_level_labels cluster_id in
      members ← getitems conversation_ids cluster_indices;
      high_level_loop conversation_ids high_level_labels rest
        (<[pretty cluster_id := members]> acc)
  end.

(** The loop that fills [cluster_subclusters] for one top-level cluster. *)
Fixpoint subcluster_loop (conversation_ids : list string) (cluster_indices : list nat)
    (subcluster_labels : list Z) (sub_ids : list Z) (acc : gmap string (list string))
    : result (gmap string (list string)) :=
  match sub_ids with
  | [] => Ok acc
  | sub_id :: rest =>
      let sub_mask := (λ l, bool_decide (l = sub_id)) <$> subcluster_labels in
      original_indices ← mask_select cluster_indices sub_mask;
      members ← getitems conversation_ids original_indices;
      subcluster_loop conversation_ids cluster_indices subcluster_labels rest
        (<[pretty sub_id := members]> acc)
  end.

(** The body of the loop of step 7 for one top-level cluster: its
    subclusters. *)
Definition subcluster_one (conversation_ids : list string) (distance_matrix : matrix)
    (num_subclusters_per_cluster : count) (high_level_labels : list Z) (cluster_id : Z)
    : result (gmap string (list string)) :=
  let cluster_indices := np_where high_level_labels cluster_id in
  if (length cluster_indices <? 2)%nat then
    members ← getitems conversation_ids cluster_indices;
    Ok {[ "0" := members ]}
  else
    cluster_distance_matrix ← submatrix distance_matrix cluster_indices;
    let cluster_condensed := squareform cluster_distance_matrix in
    let cluster_linkage := linkage cluster_condensed in
    n_subclusters ←
      py_min num_subclusters_per_cluster (Z.of_nat (length cluster_indices) - 1);
    let subcluster_labels := fcluster cluster_linkage n_subclusters in
    subcluster_loop conversation_ids cluster_indices subcluster_labels
      (np_unique subcluster_labels) ∅.

(** The labels step 7 works with for one top-level cluster when the count is
    the integer [num_subclusters_per_cluster]: those of the inner cut, or
    the single label 0 of a cluster too small to be cut. *)
Definition inner_labels (distance_matrix : matrix) (num_subclusters_per_cluster : Z)
    (high_level_labels : list Z) (cluster_id : Z) : list Z :=
  let cluster_indices := np_where high_level_labels cluster_id in
  if (length cluster_indices <? 2)%nat then replicate (length cluster_indices) 0%Z
  else
    match submatrix distance_matrix cluster_indices with
    | Ok cluster_distance_matrix =>
        fcluster (linkage (squareform cluster_distance_matrix))
          (Z.min num_subclusters_per_cluster (Z.of_nat (length cluster_indices) - 1))
    | Raise _ => []
    end.

Fixpoint subclusters_loop (conversation_ids : list string) (distance_matrix : matrix)
    (num_subclusters_per_cluster : count) (high_level_labels : list Z)
    (cluster_ids : list Z) (acc : gmap string (gmap string (list string)))
    : result (gmap string (gmap string (list string))) :=
  match cluster_ids with
  | [] => Ok acc
  | cluster_id :: rest =>
      cluster_subclusters ←
        subcluster_one conversation_ids distance_matrix num_subclusters_per_cluster
          high_level_labels cluster_id;
      subclusters_loop conversation_ids distance_matrix num_subclusters_per_cluster
        high_level_labels rest (<[pretty cluster_id := cluster_subclusters]> acc)
  end.

Definition perform_clustering (conversations : list conversation) (w : weights)
    (num_high_level_clusters num_subclusters_per_cluster : count) : result clustering :=
  if (length conversations <? 2)%nat then
    Raise (ValueError "Need at least 2 conversations to cluster")
  else
    let conversation_ids := conv_id <$> conversations in
    semantic_embeddings ← np_array (semantic_embedding <$> conversations);
    let outcomes := (λ c, [encode_outcome (outcome c)]) <$> conversations in
    '(encoded_attrs, attr_names) ← encode_attributes conversations;
    let weighted_vectors :=
      create_weighted_vectors semantic_embeddings encoded_attrs outcomes w in
    let similarity := cosine_similarity weighted_vectors in
    let distance_matrix := (λ r : list R, (λ x, 1 - x)%R <$> r) <$> similarity in
    let condensed_distance := squareform distance_matrix in
    let top_linkage := linkage condensed_distance in
    n_high_level ←
      py_min num_high_level_clusters (Z.of_nat (length conversations) - 1);
    let high_level_labels := fcluster top_linkage n_high_level in
    high_level ← high_level_loop conversation_ids high_level_labels
                   (np_unique high_level_labels) ∅;
    subs ← subclusters_loop conversation_ids distance_matrix
             num_subclusters_per_cluster high_level_labels
             (np_unique high_level_labels) ∅;
    Ok (Clustering high_level subs similarity).

(** ** main.py: the /cluster endpoint *)

(** A request that passed validation.  The two counts are the entries of
    [clustering_params], a dictionary of arbitrary values: [None] here is a
    key the dictionary does not carry. *)
Record cluster_request : Type := ClusterRequest {
  req_conversations : list conversation;
  req_weights : weights;
  req_num_high_level_clusters : option count;
  req_num_subclusters_per_cluster : option count
}.

(** The response body, without [avg_cluster_size] (a rounded float). *)
Record cluster_response : Type := ClusterResponse {
  resp_high_level_clusters : gmap string (list string);
  resp_subclusters : gmap string (gmap string (list string));
  resp_similarity_matrix : matrix;
  resp_total_conversations : nat;
  resp_total_clusters : nat
}.

(** What the handler answers: a body, or an [HTTPException] with its status
    code (the detail text is not modelled); [NotFollowed] where the model
    stopped with [Unmodelled]. *)
Inductive http_result : Type :=
  | Http200 (body : cluster_response)
  | HttpError (status : Z)
  | NotFollowed.

(** The [try] block.  The [HTTPException(400)] raised for a short request is
    raised inside the [try]; it is no [ValueError], so the last handler
    catches it and answers 500. *)
Definition cluster_conversations (request : cluster_request) : http_result :=
  if (length (req_conversations request) <? 2)%nat then HttpError 500
  else
    let num_high_level :=
      default (IntCount 5) (req_num_high_level_clusters request) in
    let num_subclusters :=
      default (IntCount 3) (req_num_subclusters_per_cluster request) in
    match perform_clustering (req_conversations request) (req_weights request)
            num_high_level num_subclusters with
    | Ok r =>
        Http200 (ClusterResponse (high_level_clusters r) (subclusters r)
                   (similarity_matrix r)
                   (length (req_conversations request))
                   (size (high_level_clusters r)))
    | Raise (ValueError _) => HttpError 400
    | Raise Unmodelled => NotFollowed
    | Raise _ => HttpError 500
    end.

End PerformClustering.

Arguments inner_labels {linkage_matrix} linkage fcluster.
Arguments subcluster_one {linkage_matrix} linkage fcluster.
Arguments subclusters_loop {linkage_matrix} linkage fcluster.
Arguments perform_clustering {linkage_matrix} linkage fcluster conversations w
  (num_high_level_clusters num_subclusters_per_cluster)%_Z.
Arguments cluster_conversations {linkage_matrix} linkage fcluster.

(** ** Sample inputs *)

Definition sample_record (i : string) (e : list R) (a : gmap string value)
    (o : string) : conversation :=
  Conversation i e a o.

(** Two records whose key [k] carries the texts [a] and [b]. *)
Definition categorical_batch : list conversation :=
  [ sample_record "r1" [1%R; 0%R] {[ "k" := VStr "a" ]} "satisfied";
    sample_record "r2" [0%R; 1%R] {[ "k" := VStr "b" ]} "unclear" ].

(** Two records whose key [flag] is [True] and [False]. *)
Definition flag_batch : list conversation :=
  [ sample_record "r1" [1%R; 0%R] {[ "flag" := VBool true ]} "satisfied";
    sample_record "r2" [0%R; 1%R] {[ "flag" := VBool false ]} "unclear" ].

(** Two records whose key [k] is [None] in both. *)
Definition null_batch : list conversation :=
  [ sample_record "r1" [1%R; 0%R] {[ "k" := VNone ]} "satisfied";
    sample_record "r2" [0%R; 1%R] {[ "k" := VNone ]} "unclear" ].

(** Two records whose key [x] is the number 1, then the text [abc]. *)
Definition mixed_batch : list conversation :=
  [ sample_record "r1" [1%R; 0%R] {[ "x" := VInt 1 ]} "satisfied";
    sample_record "r2" [0%R; 1%R] {[ "x" := VStr "abc" ]} "unclear" ].

(** Two records whose embeddings have two entries and one. *)
Definition ragged_batch : list conversation :=
  [ sample_record "r1" [1%R; 0%R] ∅ "satisfied";
    sample_record "r2" [1%R] ∅ "unclear" ].

(** Three records without attributes. *)
Definition plain_batch : list conversation :=
  [ sample_record "r1" [1%R; 0%R] ∅ "satisfied";
    sample_record "r2" [0%R; 1%R] ∅ "unclear";
    sample_record "r3" [1%R; 1%R] ∅ "unsatisfied" ].

(** One record. *)
Definition single_batch : list conversation :=
  [ sample_record "r1" [1%R; 0%R] ∅ "satisfied" ].

(** Two records without attributes; the embedding of the first has the norm
    [1e-16]. *)
Definition tiny_batch : list conversation :=
  [ sample_record "r1" [(/ 10 ^ 16)%R; 0%R] ∅ "satisfied";
    sample_record "r2" [0%R; 1%R] ∅ "unclear" ].

Definition default_weights : weights :=
  Weights (65 / 100) (25 / 100) (10 / 100).

Definition zero_weights : weights := Weights 0 0 0.

Definition semantic_only : weights := Weights 1 0 0.

(** A stand-in for SciPy in closed examples: the hierarchy only remembers
    how long the condensed matrix is, and the cut deals the labels
    [1 .. max 1 k] round robin over the observations. *)
Definition toy_linkage (y : list R) : nat := length y.

Definition toy_fcluster (m : nat) (k : Z) : list Z :=
  (λ i, 1 + Z.of_nat i `mod` Z.max 1 k)%Z <$> seq 0 (S (Nat.sqrt (2 * m))).


(** ** Predicates used to state the properties *)

Definition all_zero (a : list R) : Prop := Forall (λ x, x = 0%R) a.

(** The rows on which the float computation of the norm and the division by
    it only round: the zero row, and the rows whose norm lies between [lo]
    and [1e100]. *)
Definition in_range (lo : R) (v : list R) : Prop :=
  all_zero v ∨ (lo <= l2norm v <= 10 ^ 100)%R.

(** A row that is some base row followed by zeros. *)
Definition zero_padded (v b : list R) : Prop := ∃ z, all_zero z ∧ v = b ++ z.

(** The items whose label is [c], in order: what [np.where] followed by
    indexing selects. *)
Fixpoint select_label {A} (c : Z) (labels : list Z) (items : list A) : list A :=
  match labels, items with
  | l :: labels', x :: items' =>
      if decide (l = c) then x :: select_label c labels' items'
      else select_label c labels' items'
  | _, _ => []
  end.

(** The dictionary that maps every label, printed, to the items it selects. *)
Definition group_map {A} (labels : list Z) (items : list A) : gmap string (list A) :=
  foldl (λ acc c, <[pretty c := select_label c labels items]> acc) ∅ (np_unique labels).

(** All record ids of one top-level cluster, over its subclusters. *)
Definition cluster_members (m : gmap string (list string)) : list string :=
  mjoin (map_to_list m).*2.

(** All record ids of a taxonomy. *)
Definition taxonomy_members (t : gmap string (gmap string (list string))) : list string :=
  mjoin (cluster_members <$> (map_to_list t).*2).

(** Record [i] sits in subcluster [s] of top-level cluster [c]. *)
Definition in_cell (t : gmap string (gmap string (list string)))
    (c s : string) (i : string) : Prop :=
  ∃ m l, t !! c = Some m ∧ m !! s = Some l ∧ i ∈ l.

Definition square (n : nat) (D : matrix) : Prop :=
  length D = n ∧ Forall (λ r, length r = n) D.

(** The column type and the collected values the detection loop records
    for a key, from the first value of the key that is not [None]. *)
Definition detected_type (first : option value) : option attr_type :=
  match first with
  | Some (VBool _) => Some Boolean
  | Some (VInt _) | Some (VFloat _) | Some VNonFinite => Some Numerical
  | Some (VStr _) => Some Categorical
  | _ => None
  end.

Definition detected_values (first : option value) : option (gset string) :=
  match first with
  | Some (VStr s) => Some {[ s ]}
  | _ => None
  end.

(** [float(val) if val is not None else 0.0] goes through. *)
Definition floatable (v : value) : Prop :=
  match v with
  | VNone => True
  | _ => is_Ok (py_float v)
  end.

(** The batch gives [key] a column type and values that fit it. *)
Definition encodable_key (convs : list conversation) (key : string) : Prop :=
  match first_non_none key convs with
  | Some (VBool _) | Some (VStr _) => True
  | Some (VInt _) | Some (VFloat _) | Some VNonFinite =>
      Forall (λ c, floatable (get_attr c key)) convs
  | Some VNone | Some (VOther _) | None => False
  end.

Definition encodable (convs : list conversation) : Prop :=
  ∀ key, key ∈ all_keys convs → encodable_key convs key.

(** The batches a run accepts: at least two records, embeddings of one
    dimension, attributes that encode. *)
Definition valid_batch (convs : list conversation) : Prop :=
  2 ≤ length convs ∧
  homogeneous (semantic_embedding <$> convs) ∧
  is_Ok (encode_attributes convs).

(** Checks that a sample batch is valid by evaluation. *)
Ltac valid_sample :=
  split; [simpl; lia |];
  split; [apply (bool_decide_unpack _); vm_compute; exact I | eexists; reflexivity].

(** The exceptions that can come out of a run once the record count has
    been accepted: among the [ValueError]s, only that of the array
    construction and that of [float]. *)
Definition later_exn (e : exn) : Prop :=
  match e with
  | ValueError msg =>
      msg = "inhomogeneous shape" ∨ msg = "could not convert string to float"
  | _ => True
  end.

(** * Properties *)

(** ** Sums, dot products and norms *)

Section VectorFacts.
Local Open Scope R_scope.

Lemma Rsum_app (a b : list R) : Rsum (a ++ b) = Rsum a + Rsum b.
Proof. induction a as [|x a IH]; simpl; [lra | rewrite IH; lra]. Qed.

Lemma dot_nil_l (b : list R) : dot [] b = 0.
Proof. reflexivity. Qed.

Lemma dot_nil_r (a : list R) : dot a [] = 0.
Proof. destruct a; reflexivity. Qed.

Lemma dot_cons (x y : R) (a b : list R) : dot (x :: a) (y :: b) = x * y + dot a b.
Proof. reflexivity. Qed.

Lemma dot_comm (a b : list R) : dot a b = dot b a.
Proof.
  revert b. induction a as [|x a IH]; intros [|y b]; try reflexivity.
  rewrite !dot_cons, IH. lra.
Qed.

Lemma dot_self_nonneg (a : list R) : 0 <= dot a a.
Proof.
  induction a as [|x a IH]; [rewrite dot_nil_l; lra |].
  rewrite dot_cons. nra.
Qed.

Lemma dot_self_zero (a : list R) : dot a a = 0 ↔ all_zero a.
Proof.
  unfold all_zero. induction a as [|x a IH].
  - split; [constructor | reflexivity].
  - rewrite dot_cons, Forall_cons. pose proof (dot_self_nonneg a).
    split.
    + intros H0. assert (x * x = 0 ∧ dot a a = 0) as [Hx Ha] by nra.
      split; [nra | by apply IH].
    + intros [-> Ha]. apply IH in Ha. lra.
Qed.

Lemma dot_zero_l (z b : list R) : all_zero z → dot z b = 0.
Proof.
  intros Hz. revert b. induction Hz as [|x z -> _ IH]; intros [|y b]; try reflexivity.
  rewrite dot_cons, IH. lra.
Qed.

Lemma dot_zero_r (a z : list R) : all_zero z → dot a z = 0.
Proof. intros. rewrite dot_comm. by apply dot_zero_l. Qed.

Lemma dot_app_zero (a b z z' : list R) :
  all_zero z → all_zero z' → dot (a ++ z) (b ++ z') = dot a b.
Proof.
  intros Hz Hz'. revert b. induction a as [|x a IH]; intros [|y b]; simpl.
  - by apply dot_zero_l.
  - by apply dot_zero_l.
  - rewrite dot_nil_r. apply dot_zero_r. done.
  - rewrite !dot_cons, IH. done.
Qed.

Lemma dot_scale (c d : R) (a b : list R) :
  dot ((λ x, x * c) <$> a) ((λ x, x * d) <$> b) = dot a b * (c * d).
Proof.
  revert b. induction a as [|x a IH]; intros [|y b]; simpl;
    rewrite ?dot_nil_l, ?dot_nil_r; try lra.
  rewrite !dot_cons, IH. lra.
Qed.

Lemma l2norm_nonneg (a : list R) : 0 <= l2norm a.
Proof. apply sqrt_pos. Qed.

Lemma l2norm_sqr (a : list R) : l2norm a * l2norm a = dot a a.
Proof. apply sqrt_sqrt, dot_self_nonneg. Qed.

Lemma l2norm_zero (a : list R) : l2norm a = 0 ↔ all_zero a.
Proof.
  rewrite <- dot_self_zero. unfold l2norm. split.
  - intros H. apply sqrt_eq_0; [apply dot_self_nonneg | done].
  - intros ->. apply sqrt_0.
Qed.

Lemma epsilon_pos : 0 < epsilon.
Proof. unfold epsilon. apply Rinv_0_lt_compat. lra. Qed.

End VectorFacts.

(** ** Cosine similarity *)

Section SimilarityFacts.
Local Open Scope R_scope.

Lemma float_eps_pos : 0 < float_eps.
Proof. unfold float_eps. apply Rinv_0_lt_compat. lra. Qed.

(** A row [normalize] leaves as it is, and one it divides by its norm. *)
Lemma sk_normalize_row_small (a : list R) :
  l2norm a < 10 * float_eps → sk_normalize_row a = a.
Proof.
  intros Hs. unfold sk_normalize_row. rewrite bool_decide_eq_true_2 by done.
  simpl. etransitivity; [| apply list_fmap_id]. apply list_fmap_ext.
  intros i x _. simpl. lra.
Qed.

Lemma sk_normalize_row_large (a : list R) :
  10 * float_eps <= l2norm a → sk_normalize_row a = (λ x, x / l2norm a) <$> a.
Proof.
  intros Hs. unfold sk_normalize_row. rewrite bool_decide_eq_false_2 by lra. done.
Qed.

Lemma sk_normalize_row_all_zero (a : list R) : all_zero a → sk_normalize_row a = a.
Proof.
  intros Hz. apply sk_normalize_row_small. apply l2norm_zero in Hz. rewrite Hz.
  pose proof float_eps_pos. lra.
Qed.

Lemma div_as_mult (c : R) (a : list R) :
  (λ x, x / c) <$> a = (λ x, x * / c) <$> a.
Proof. reflexivity. Qed.

Lemma entry_lookup (X : matrix) (i j : nat) :
  entry X i j = default 0 (r ← X !! i; r !! j).
Proof.
  unfold entry. rewrite !nth_lookup.
  destruct (X !! i) as [r|]; simpl; [done |]. done.
Qed.

Lemma entry_cosine_similarity (X : matrix) (i j : nat) :
  entry (cosine_similarity X) i j =
    match X !! i, X !! j with
    | Some a, Some b => dot (sk_normalize_row a) (sk_normalize_row b)
    | _, _ => 0
    end.
Proof.
  rewrite entry_lookup. unfold cosine_similarity, sk_normalize.
  rewrite !list_lookup_fmap.
  destruct (X !! i) as [a|]; simpl; [| done].
  rewrite !list_lookup_fmap.
  destruct (X !! j) as [b|]; simpl; done.
Qed.

Lemma cosine_similarity_symmetric (X : matrix) (i j : nat) :
  entry (cosine_similarity X) i j = entry (cosine_similarity X) j i.
Proof.
  rewrite !entry_cosine_similarity.
  destruct (X !! i), (X !! j); try done. apply dot_comm.
Qed.

(** The self-similarity of a row: its squared norm if the row is left as it
    is, one if it is divided by its norm. *)
Lemma dot_sk_normalize_self (a : list R) :
  dot (sk_normalize_row a) (sk_normalize_row a)
  = if decide (l2norm a < 10 * float_eps) then l2norm a * l2norm a else 1.
Proof.
  pose proof float_eps_pos as He.
  destruct (decide (l2norm a < 10 * float_eps)) as [Hs|Hl].
  - rewrite sk_normalize_row_small by done. by rewrite l2norm_sqr.
  - rewrite sk_normalize_row_large by lra. rewrite div_as_mult, dot_scale.
    rewrite <- l2norm_sqr. field. lra.
Qed.

Lemma cosine_similarity_diag (X : matrix) (i : nat) (a : list R) :
  X !! i = Some a →
  entry (cosine_similarity X) i i
  = if decide (l2norm a < 10 * float_eps) then l2norm a * l2norm a else 1.
Proof.
  intros Ha. rewrite entry_cosine_similarity, Ha. apply dot_sk_normalize_self.
Qed.

Lemma cosine_similarity_diag_zero (X : matrix) (i : nat) (a : list R) :
  X !! i = Some a → all_zero a → entry (cosine_similarity X) i i = 0.
Proof.
  intros Ha Hz. rewrite (cosine_similarity_diag _ _ _ Ha).
  apply l2norm_zero in Hz. rewrite Hz. pose proof float_eps_pos.
  destruct (decide _); lra.
Qed.

Lemma cosine_similarity_diag_one (X : matrix) (i : nat) (a : list R) :
  X !! i = Some a → 10 * float_eps <= l2norm a →
  entry (cosine_similarity X) i i = 1.
Proof.
  intros Ha Hl. rewrite (cosine_similarity_diag _ _ _ Ha).
  destruct (decide _); [lra | done].
Qed.

Lemma cosine_similarity_diag_small (X : matrix) (i : nat) (a : list R) :
  X !! i = Some a → l2norm a < 10 * float_eps →
  entry (cosine_similarity X) i i = l2norm a * l2norm a.
Proof.
  intros Ha Hs. rewrite (cosine_similarity_diag _ _ _ Ha).
  destruct (decide _); [done | lra].
Qed.

Lemma length_cosine_similarity (X : matrix) :
  length (cosine_similarity X) = length X.
Proof. unfold cosine_similarity, sk_normalize. by rewrite !length_fmap. Qed.

Lemma cosine_similarity_square (X : matrix) :
  Forall (λ r, length r = length X) (cosine_similarity X).
Proof.
  unfold cosine_similarity, sk_normalize. apply Forall_fmap, Forall_forall.
  intros a _. simpl. by rewrite !length_fmap.
Qed.

End SimilarityFacts.

(** ** Composite vectors *)

Section CompositionFacts.
Local Open Scope R_scope.

Lemma length_normalize_rows (X : matrix) : length (normalize_rows X) = length X.
Proof. apply length_fmap. Qed.

Lemma length_scale_matrix (c : R) (X : matrix) : length (scale_matrix c X) = length X.
Proof. apply length_fmap. Qed.

Lemma length_zeros (n m : nat) : length (zeros n m) = n.
Proof. apply length_replicate. Qed.

Lemma length_concatenate3 (A B C : matrix) :
  length B = length A → length C = length A → length (concatenate3 A B C) = length A.
Proof. intros HB HC. unfold concatenate3. rewrite !length_zip_with. lia. Qed.

Lemma length_create_weighted_vectors (S A O : matrix) (w : weights) :
  length A = length S → length O = length S →
  length (create_weighted_vectors S A O w) = length S.
Proof.
  intros HA HO. unfold create_weighted_vectors.
  rewrite length_concatenate3; rewrite !length_scale_matrix, ?length_normalize_rows; try done.
  destruct (0 <? ncols A)%nat; [by rewrite length_normalize_rows | apply length_zeros].
Qed.

Lemma scale_matrix_0_all_zero (X : matrix) : Forall all_zero (scale_matrix 0 X).
Proof.
  unfold scale_matrix. apply Forall_fmap, Forall_forall. intros r _. simpl.
  apply Forall_fmap, Forall_forall. intros x _. simpl. lra.
Qed.

Lemma all_zero_app (a b : list R) : all_zero a → all_zero b → all_zero (a ++ b).
Proof. intros. by apply Forall_app. Qed.

Lemma zip_with_app_zero_padded (W Z : matrix) :
  length Z = length W → Forall all_zero Z →
  Forall2 zero_padded (zip_with app W Z) W.
Proof.
  revert Z. induction W as [|w W IH]; intros [|z Z] Hlen HZ; simpl in *; try done.
  apply Forall_cons in HZ as [Hz HZ]. constructor.
  - by exists z.
  - apply IH; [lia | done].
Qed.

Lemma zip_with_app_all_zero (B C : matrix) :
  Forall all_zero B → Forall all_zero C → Forall all_zero (zip_with app B C).
Proof.
  intros HB. revert C. induction HB as [|b B Hb _ IH]; intros [|c C] HC; simpl; try done.
  apply Forall_cons in HC as [Hc HC]. constructor; [by apply all_zero_app | by apply IH].
Qed.

Lemma dot_zero_padded (a a' b b' : list R) :
  zero_padded a a' → zero_padded b b' → dot a b = dot a' b'.
Proof. intros (z & Hz & ->) (z' & Hz' & ->). by apply dot_app_zero. Qed.

Lemma sqrt_mult_sqr (x c : R) : 0 <= x → 0 <= c → sqrt (x * (c * c)) = sqrt x * c.
Proof.
  intros Hx Hc. rewrite sqrt_mult; [| done | nra]. by rewrite sqrt_square.
Qed.

Lemma l2norm_normalize_row (s : list R) :
  l2norm (normalize_row s) = l2norm s / (l2norm s + epsilon).
Proof.
  pose proof (l2norm_nonneg s). pose proof epsilon_pos.
  unfold l2norm at 1, normalize_row.
  rewrite div_as_mult, dot_scale, sqrt_mult_sqr.
  - reflexivity.
  - apply dot_self_nonneg.
  - left. apply Rinv_0_lt_compat. lra.
Qed.

Lemma fmap_Rmult_1 (a : list R) : Rmult 1 <$> a = a.
Proof. induction a as [|x a IH]; [done |]. rewrite fmap_cons, IH. f_equal. lra. Qed.

Lemma normalize_row_all_zero (s : list R) : all_zero s → normalize_row s = s.
Proof.
  intros Hz. unfold normalize_row.
  etransitivity; [| apply (list_fmap_id s)]. apply list_fmap_ext. intros i x Hx. simpl.
  unfold all_zero in Hz. rewrite Forall_forall in Hz.
  rewrite (Hz x) by (by eapply list_elem_of_lookup_2). unfold Rdiv. lra.
Qed.

(** The guarded normalisation does not change what [normalize] makes of a
    row, provided the row is zero or long enough for both to be divided by
    their norms. *)
Lemma sk_normalize_normalize_row (s : list R) :
  in_range (/ 10 ^ 6) s → sk_normalize_row (normalize_row s) = sk_normalize_row s.
Proof.
  pose proof (l2norm_nonneg s) as Hn. pose proof epsilon_pos as He.
  pose proof float_eps_pos as Hf.
  intros [Hz|[Hlo _]]; [by rewrite normalize_row_all_zero |].
  assert (/ 10 ^ 6 = 100 * epsilon) as Hsix by (unfold epsilon; simpl; lra).
  assert (10 * float_eps <= / 2) as Hhalf by (unfold float_eps; lra).
  assert (/ 2 <= l2norm s / (l2norm s + epsilon)) as Hbig.
  { apply (Rmult_le_reg_r (l2norm s + epsilon)); [lra |].
    unfold Rdiv. rewrite Rmult_assoc, Rinv_l by lra. lra. }
  assert (10 * float_eps <= l2norm s) as Hraw.
  { unfold epsilon in Hsix. unfold float_eps in *. lra. }
  rewrite (sk_normalize_row_large s) by done.
  rewrite sk_normalize_row_large by (rewrite l2norm_normalize_row; lra).
  rewrite l2norm_normalize_row. unfold normalize_row. rewrite <- list_fmap_compose.
  apply list_fmap_ext. intros i x Hx. simpl. field. split; lra.
Qed.

Lemma sk_normalize_normalize_rows (X : matrix) :
  Forall (in_range (/ 10 ^ 6)) X → sk_normalize (normalize_rows X) = sk_normalize X.
Proof.
  intros HX. unfold sk_normalize, normalize_rows. rewrite <- list_fmap_compose.
  apply list_fmap_ext. intros i s Hs. apply sk_normalize_normalize_row.
  rewrite Forall_forall in HX. apply HX. by eapply list_elem_of_lookup_2.
Qed.

Lemma sk_normalize_row_zero_padded (v b : list R) :
  zero_padded v b → zero_padded (sk_normalize_row v) (sk_normalize_row b).
Proof.
  intros (z & Hz & ->).
  assert (l2norm (b ++ z) = l2norm b) as Hn.
  { unfold l2norm. f_equal. by apply dot_app_zero. }
  unfold sk_normalize_row. rewrite Hn, fmap_app. eexists. split; [| reflexivity].
  apply Forall_fmap, Forall_forall. intros x Hx. simpl.
  unfold all_zero in Hz. rewrite Forall_forall in Hz. rewrite (Hz x Hx).
  unfold Rdiv. lra.
Qed.

Lemma dot_row_zero_padded (Vn Bn : matrix) (a a' : list R) :
  Forall2 zero_padded Vn Bn → zero_padded a a' →
  (λ b, dot a b) <$> Vn = (λ b, dot a' b) <$> Bn.
Proof.
  intros HN Ha. induction HN as [|v b Vn Bn Hvb _ IH]; [done |].
  rewrite !fmap_cons. f_equal; [by apply dot_zero_padded | done].
Qed.

Lemma gram_zero_padded (Vn Bn X Y : matrix) :
  Forall2 zero_padded Vn Bn → Forall2 zero_padded X Y →
  (λ a, (λ b, dot a b) <$> Vn) <$> X = (λ a, (λ b, dot a b) <$> Bn) <$> Y.
Proof.
  intros HN HXY. induction HXY as [|x y X Y Hxy _ IH]; [done |].
  rewrite !fmap_cons. f_equal; [by apply dot_row_zero_padded | done].
Qed.

Lemma cosine_similarity_zero_padded (V B : matrix) :
  Forall2 zero_padded V B → cosine_similarity V = cosine_similarity B.
Proof.
  intros HVB. unfold cosine_similarity, sk_normalize.
  assert (Forall2 zero_padded (sk_normalize_row <$> V) (sk_normalize_row <$> B)) as HN.
  { apply Forall2_fmap. eapply Forall2_impl; [done |]. apply sk_normalize_row_zero_padded. }
  by apply gram_zero_padded.
Qed.

(** With the weights (1, 0, 0) the composite vectors are the normalised
    embeddings followed by zeros. *)
Lemma semantic_only_normalized (S A O : matrix) :
  length A = length S → length O = length S →
  cosine_similarity (create_weighted_vectors S A O semantic_only)
  = cosine_similarity (normalize_rows S).
Proof.
  intros HA HO. apply cosine_similarity_zero_padded.
  unfold create_weighted_vectors, semantic_only, concatenate3. simpl.
  assert (scale_matrix 1 (normalize_rows S) = normalize_rows S) as ->.
  { unfold scale_matrix. erewrite list_fmap_ext; [apply list_fmap_id |].
    intros i r _. simpl. apply fmap_Rmult_1. }
  apply zip_with_app_zero_padded.
  - rewrite !length_zip_with, !length_scale_matrix, !length_normalize_rows.
    destruct (0 <? ncols A)%nat; rewrite ?length_normalize_rows, ?length_zeros; lia.
  - apply zip_with_app_all_zero; apply scale_matrix_0_all_zero.
Qed.

Lemma semantic_only_similarity (S A O : matrix) :
  length A = length S → length O = length S → Forall (in_range (/ 10 ^ 6)) S →
  cosine_similarity (create_weighted_vectors S A O semantic_only) = cosine_similarity S.
Proof.
  intros HA HO HS. rewrite semantic_only_normalized by done.
  unfold cosine_similarity. by rewrite sk_normalize_normalize_rows.
Qed.

End CompositionFacts.

(** ** Exceptions and indexing *)

Section ResultFacts.
Context {A B : Type}.

Lemma mapR_Forall2 (f : A → result B) (l : list A) (ys : list B) :
  mapR f l = Ok ys ↔ Forall2 (λ x y, f x = Ok y) l ys.
Proof.
  revert ys. induction l as [|x l IH]; intros ys; simpl.
  - split; [intros [= <-]; constructor | by inversion 1].
  - split.
    + destruct (f x) as [y|e] eqn:Hfx; simpl; [| done].
      destruct (mapR f l) as [ys'|e] eqn:Hl; simpl; [| done].
      intros [= <-]. constructor; [done | by apply IH].
    + inversion 1 as [|? y ? ys' Hfx Hl]; subst. apply IH in Hl.
      by rewrite Hfx, Hl.
Qed.

Lemma mapR_ok (f : A → result B) (g : A → B) (l : list A) :
  Forall (λ x, f x = Ok (g x)) l → mapR f l = Ok (g <$> l).
Proof.
  intros H. apply mapR_Forall2. induction H; constructor; done.
Qed.

End ResultFacts.

Section IndexingFacts.
Context {A : Type}.
Implicit Types (l items : list A) (idxs : list nat) (labels : list Z).

Lemma getitems_Forall2 l idxs xs :
  getitems l idxs = Ok xs ↔ Forall2 (λ i x, l !! i = Some x) idxs xs.
Proof.
  unfold getitems. rewrite mapR_Forall2.
  split; intros H; (eapply Forall2_impl; [exact H |]); simpl;
    intros i x; destruct (l !! i); naive_solver.
Qed.

Lemma getitems_length l idxs xs : getitems l idxs = Ok xs → length xs = length idxs.
Proof. rewrite getitems_Forall2. intros H. symmetry. by eapply Forall2_length. Qed.

Lemma getitems_in_range l idxs :
  Forall (λ i, i < length l) idxs → ∃ xs, getitems l idxs = Ok xs.
Proof.
  induction 1 as [|i idxs Hi _ [xs IH]].
  - by exists [].
  - apply lookup_lt_is_Some_2 in Hi as [x Hx]. exists (x :: xs).
    apply getitems_Forall2. constructor; [done | by apply getitems_Forall2].
Qed.

Lemma filter_seq_shift labels (x c : Z) (k n : nat) :
  filter (λ i, (x :: labels) !! i = Some c) (seq (S k) n)
  = S <$> filter (λ i, labels !! i = Some c) (seq k n).
Proof.
  revert k. induction n as [|n IH]; intros k; [done |].
  simpl seq. rewrite !filter_cons, IH. simpl.
  destruct (decide (labels !! k = Some c)); done.
Qed.

Lemma np_where_cons labels (x c : Z) :
  np_where (x :: labels) c
  = (if decide (x = c) then [0] else []) ++ (S <$> np_where labels c).
Proof.
  unfold np_where. simpl length. simpl seq.
  rewrite filter_cons, filter_seq_shift. simpl.
  destruct (decide (x = c)) as [->|Hne].
  - destruct (decide (Some c = Some c)); done.
  - destruct (decide (Some x = Some c)) as [[= ?]|]; done.
Qed.

Lemma np_where_select labels items (c : Z) :
  length labels = length items →
  Forall2 (λ i x, items !! i = Some x) (np_where labels c) (select_label c labels items).
Proof.
  revert items. induction labels as [|x labels IH]; intros [|y items] Hlen;
    simpl in Hlen; try done.
  rewrite np_where_cons. simpl.
  assert (Forall2 (λ i z, (y :: items) !! i = Some z)
            (S <$> np_where labels c) (select_label c labels items)) as Hrest.
  { apply Forall2_fmap_l. eapply Forall2_impl; [apply IH; lia |]. done. }
  destruct (decide (x = c)); simpl; [constructor |]; done.
Qed.

Lemma getitems_np_where labels items (c : Z) :
  length labels = length items →
  getitems items (np_where labels c) = Ok (select_label c labels items).
Proof. intros. by apply getitems_Forall2, np_where_select. Qed.

Lemma length_np_where_select labels items (c : Z) :
  length labels = length items →
  length (np_where labels c) = length (select_label c labels items).
Proof. intros. eapply Forall2_length. by apply np_where_select. Qed.

Lemma np_where_in_range labels (c : Z) :
  Forall (λ i, i < length labels) (np_where labels c).
Proof.
  unfold np_where. apply Forall_forall. intros i Hi.
  apply list_elem_of_filter in Hi as [Hi _]. by apply lookup_lt_Some in Hi.
Qed.

Lemma mask_select_labels (idxs : list nat) labels (s : Z) :
  length labels = length idxs →
  mask_select idxs ((λ z : Z, bool_decide (z = s)) <$> labels) = Ok (select_label s labels idxs).
Proof.
  intros Hlen. unfold mask_select. rewrite length_fmap.
  destruct (decide (length labels = length idxs)); [| done]. f_equal.
  clear e. revert idxs Hlen. induction labels as [|x labels IH]; intros [|i idxs] Hlen;
    simpl in *; try done.
  rewrite filter_cons. simpl.
  destruct (decide (x = s)) as [->|Hne].
  - rewrite bool_decide_eq_true_2 by done. simpl.
    destruct (decide (true = true)); [| done]. f_equal. apply IH. lia.
  - rewrite bool_decide_eq_false_2 by done. simpl.
    destruct (decide (false = true)); [done |]. apply IH. lia.
Qed.

Lemma select_label_Forall2 {B} (P : A → B → Prop) labels (xs : list A) (ys : list B) (s : Z) :
  Forall2 P xs ys → Forall2 P (select_label s labels xs) (select_label s labels ys).
Proof.
  intros H. revert labels. induction H as [|x y xs ys Hxy _ IH]; intros [|l labels]; simpl;
    try constructor.
  destruct (decide (l = s)); [constructor |]; done.
Qed.

Lemma length_select_label_le labels items (c : Z) :
  length (select_label c labels items) ≤ length items.
Proof.
  revert items. induction labels as [|x labels IH]; intros [|y items]; simpl; try lia.
  specialize (IH items). destruct (decide (x = c)); simpl; lia.
Qed.

End IndexingFacts.

(** ** Grouping by label *)

Section GroupingFacts.
Context {A : Type}.
Implicit Types (items : list A) (labels cs : list Z).

Lemma NoDup_np_unique labels : NoDup (np_unique labels).
Proof.
  unfold np_unique. rewrite merge_sort_Permutation. apply NoDup_remove_dups.
Qed.

Lemma elem_of_np_unique labels (c : Z) : c ∈ np_unique labels ↔ c ∈ labels.
Proof.
  unfold np_unique. rewrite merge_sort_Permutation. apply elem_of_remove_dups.
Qed.

Lemma select_label_nil_r (c : Z) labels : select_label c labels (@nil A) = [].
Proof. by destruct labels. Qed.

Lemma select_label_not_elem labels items (c : Z) :
  c ∉ labels → select_label c labels items = [].
Proof.
  revert items. induction labels as [|x labels IH]; intros [|y items] Hc; simpl; try done.
  apply not_elem_of_cons in Hc as [Hne Hc].
  destruct (decide (x = c)); [congruence | by apply IH].
Qed.

Lemma select_label_nonempty labels items (c : Z) :
  length labels = length items → c ∈ labels → select_label c labels items ≠ [].
Proof.
  revert items. induction labels as [|x labels IH]; intros [|y items] Hlen Hc;
    simpl in *; try done.
  - by apply elem_of_nil in Hc.
  - destruct (decide (x = c)); [done |].
    apply elem_of_cons in Hc as [->|Hc]; [done |]. apply IH; [lia | done].
Qed.

Lemma join_singleton_at (x : A) (l : Z) cs :
  NoDup cs → l ∈ cs →
  mjoin ((λ c, if decide (l = c) then [x] else []) <$> cs) = [x].
Proof.
  induction 1 as [|c cs Hc Hnd IH]; intros Hl; [by apply elem_of_nil in Hl |].
  rewrite fmap_cons. simpl. destruct (decide (l = c)) as [->|Hne].
  - simpl. f_equal. apply join_nil_2, Forall_fmap, Forall_forall.
    intros c' Hc'. simpl. destruct (decide (c = c')) as [->|]; done.
  - apply elem_of_cons in Hl as [->|Hl]; [done |]. by apply IH.
Qed.

Lemma join_fmap_app (f g : Z → list A) cs :
  mjoin ((λ c, f c ++ g c) <$> cs) ≡ₚ mjoin (f <$> cs) ++ mjoin (g <$> cs).
Proof.
  induction cs as [|c cs IH]; [done |].
  rewrite !fmap_cons. simpl. rewrite IH.
  rewrite <- !(assoc_L (++)). f_equiv.
  rewrite !(assoc_L (++)). f_equiv. apply Permutation_app_comm.
Qed.

(** Selecting by every label once gives back all items. *)
Lemma select_label_partition labels items cs :
  NoDup cs → (∀ l, l ∈ labels → l ∈ cs) → length labels = length items →
  mjoin ((λ c, select_label c labels items) <$> cs) ≡ₚ items.
Proof.
  intros Hnd. revert items. induction labels as [|x labels IH];
    intros [|y items] Hall Hlen; simpl in Hlen; try done.
  - rewrite join_nil_2; [done |]. apply Forall_fmap, Forall_forall. done.
  - assert ((λ c, select_label c (x :: labels) (y :: items)) <$> cs
            = (λ c, (if decide (x = c) then [y] else []) ++ select_label c labels items)
                <$> cs) as ->.
    { apply list_fmap_ext. intros _ c _. simpl. destruct (decide (x = c)); done. }
    rewrite join_fmap_app, join_singleton_at; [| done | apply Hall; left].
    simpl. f_equiv. apply IH; [| lia]. intros l Hl. apply Hall. by right.
Qed.

Lemma select_label_unique_partition labels items :
  length labels = length items →
  mjoin ((λ c, select_label c labels items) <$> np_unique labels) ≡ₚ items.
Proof.
  intros. apply select_label_partition; [apply NoDup_np_unique | | done].
  intros l. apply elem_of_np_unique.
Qed.

End GroupingFacts.

Section InsertLoopFacts.
Context {V : Type}.
Implicit Types (f : Z → V) (acc : gmap string V) (cs : list Z).

Lemma insert_loop_lookup_other f cs acc (k : string) :
  (∀ c, c ∈ cs → pretty c ≠ k) →
  foldl (λ m c, <[pretty c := f c]> m) acc cs !! k = acc !! k.
Proof.
  revert acc. induction cs as [|c cs IH]; intros acc Hk; simpl; [done |].
  rewrite IH by (intros c' Hc'; apply Hk; by right).
  apply lookup_insert_ne, Hk. by left.
Qed.

Lemma insert_loop_lookup f cs acc (c : Z) :
  c ∈ cs → foldl (λ m c, <[pretty c := f c]> m) acc cs !! pretty c = Some (f c).
Proof.
  revert acc. induction cs as [|c' cs IH]; intros acc Hc; simpl.
  - by apply elem_of_nil in Hc.
  - destruct (decide (c ∈ cs)) as [Hin|Hnin]; [by apply IH |].
    apply elem_of_cons in Hc as [->|Hc]; [| done].
    rewrite insert_loop_lookup_other; [apply lookup_insert_eq |].
    intros c Hc Heq. apply (inj pretty) in Heq. by subst.
Qed.

Lemma insert_loop_dom f cs acc :
  dom (foldl (λ m c, <[pretty c := f c]> m) acc cs)
  = dom acc ∪ list_to_set (pretty <$> cs).
Proof.
  revert acc. induction cs as [|c cs IH]; intros acc; simpl.
  - by rewrite (right_id_L ∅ (∪)).
  - rewrite IH, dom_insert_L, (comm_L (∪) {[pretty c]} (dom acc)).
    by rewrite (assoc_L (∪)).
Qed.

Lemma insert_loop_to_list f cs acc :
  NoDup cs → (∀ c, c ∈ cs → acc !! pretty c = None) →
  map_to_list (foldl (λ m c, <[pretty c := f c]> m) acc cs)
  ≡ₚ ((λ c, (pretty c, f c)) <$> cs) ++ map_to_list acc.
Proof.
  intros Hnd. revert acc. induction Hnd as [|c cs Hc Hnd IH]; intros acc Hacc; simpl.
  - done.
  - rewrite IH.
    + rewrite map_to_list_insert by (apply Hacc; by left).
      by rewrite Permutation_middle.
    + intros c' Hc'. rewrite lookup_insert_ne; [apply Hacc; by right |].
      intros Heq. apply (inj pretty) in Heq. by subst.
Qed.

End InsertLoopFacts.

Section GroupMapFacts.
Context {A : Type}.
Implicit Types (items : list A) (labels : list Z).

Lemma group_map_lookup labels items (c : Z) :
  c ∈ labels → group_map labels items !! pretty c = Some (select_label c labels items).
Proof.
  intros Hc. unfold group_map.
  apply (insert_loop_lookup (λ c, select_label c labels items)).
  by apply elem_of_np_unique.
Qed.

Lemma group_map_lookup_Some labels items (k : string) (l : list A) :
  group_map labels items !! k = Some l →
  ∃ c, c ∈ labels ∧ k = pretty c ∧ l = select_label c labels items.
Proof.
  intros Hk.
  destruct (decide (k ∈ (pretty <$> np_unique labels : list string))) as [Hin|Hnin].
  - apply list_elem_of_fmap in Hin as (c & -> & Hc).
    rewrite elem_of_np_unique in Hc. exists c. split; [done |]. split; [done |].
    rewrite group_map_lookup in Hk by done. congruence.
  - unfold group_map in Hk.
    rewrite (insert_loop_lookup_other (λ c, select_label c labels items)) in Hk; [done |].
    intros c Hc <-. apply Hnin. by apply list_elem_of_fmap_2.
Qed.

Lemma group_map_dom labels items :
  dom (group_map labels items) = list_to_set (pretty <$> np_unique labels).
Proof.
  unfold group_map.
  rewrite (insert_loop_dom (λ c, select_label c labels items)), dom_empty_L.
  by rewrite (left_id_L ∅ (∪)).
Qed.

Lemma group_map_members labels items :
  length labels = length items →
  mjoin (map_to_list (group_map labels items)).*2 ≡ₚ items.
Proof.
  intros Hlen. unfold group_map.
  rewrite (insert_loop_to_list (λ c, select_label c labels items));
    [| apply NoDup_np_unique | done].
  rewrite map_to_list_empty, app_nil_r, <- list_fmap_compose.
  by apply select_label_unique_partition.
Qed.

End GroupMapFacts.

(** ** Shapes *)

Section ShapeFacts.

Lemma length_transpose (n : nat) (cols : matrix) : length (transpose n cols) = n.
Proof. unfold transpose. by rewrite length_fmap, length_seq. Qed.

Lemma length_fit_transform (X : matrix) : length (fit_transform X) = length X.
Proof. unfold fit_transform. apply length_transpose. Qed.

Lemma encode_attributes_rows (convs : list conversation) (X : matrix) (names : list string) :
  encode_attributes convs = Ok (X, names) → length X = length convs.
Proof.
  unfold encode_attributes. destruct convs as [|c convs]; [by intros [= <- _] |].
  destruct (decide _); [intros [= <- _]; apply length_zeros |].
  destruct (detect_types _ _) as [types cats].
  destruct (encode_keys _ _ _ _) as [[fvs names']|e]; simpl; [| done].
  destruct fvs as [|col fvs]; intros [= <- _]; [apply length_zeros |].
  by rewrite length_fit_transform, length_transpose.
Qed.

(** The condensed form of an [n] by [n] matrix has [n (n - 1) / 2] entries. *)
Lemma length_squareform_from (k m : nat) (D : matrix) :
  Forall (λ r, length r = m) D → k + length D = m →
  2 * length (mjoin (imap (λ i r, drop (S (k + i)) r) D)) = length D * (length D - 1).
Proof.
  revert k. induction D as [|r D IH]; intros k Hrows Hk; [done |].
  apply Forall_cons in Hrows as [Hr Hrows].
  rewrite imap_cons. simpl mjoin. rewrite length_app, length_drop, Hr.
  simpl length in *.
  erewrite (imap_ext _ (λ i r, drop (S (S k + i)) r)).
  2:{ intros i x _. simpl. by rewrite Nat.add_succ_r. }
  specialize (IH (S k) Hrows). nia.
Qed.

Lemma length_squareform (n : nat) (D : matrix) :
  square n D → 2 * length (squareform D) = n * (n - 1).
Proof.
  intros [Hn Hrows]. subst n. unfold squareform.
  by apply (length_squareform_from 0 (length D)).
Qed.

Lemma square_distance (X : matrix) :
  square (length X)
    ((λ r : list R, (λ x, 1 - x)%R <$> r) <$> cosine_similarity X).
Proof.
  split.
  - by rewrite length_fmap, length_cosine_similarity.
  - apply Forall_fmap. eapply Forall_impl; [apply cosine_similarity_square |].
    intros r Hr. simpl. by rewrite length_fmap.
Qed.

Lemma submatrix_square (n : nat) (D : matrix) (idxs : list nat) :
  square n D → Forall (λ i, i < n) idxs →
  ∃ M, submatrix D idxs = Ok M ∧ square (length idxs) M.
Proof.
  intros [Hn Hrows] Hidx. unfold submatrix.
  destruct (getitems_in_range D idxs) as [rows Hrows']; [by rewrite Hn |].
  rewrite Hrows'. simpl.
  assert (Forall (λ r, length r = n) rows) as Hlen.
  { apply getitems_Forall2 in Hrows'. apply Forall_forall. intros r Hr.
    apply list_elem_of_lookup in Hr as [j Hj].
    destruct (Forall2_lookup_r _ _ _ j r Hrows' Hj) as (i & _ & Hi).
    rewrite Forall_forall in Hrows. apply Hrows. by eapply list_elem_of_lookup_2. }
  assert (∃ M, mapR (λ r, getitems r idxs) rows = Ok M ∧ length M = length rows
               ∧ Forall (λ r, length r = length idxs) M) as (M & HM & HlenM & HMrows).
  { clear Hrows'. induction Hlen as [|r rows Hr _ (M & HM & ? & ?)].
    - exists []. by repeat split.
    - destruct (getitems_in_range r idxs) as [row Hrow]; [by rewrite Hr |].
      exists (row :: M). simpl. rewrite Hrow, HM. simpl. repeat split.
      + by f_equal.
      + constructor; [by eapply getitems_length | done]. }
  exists M. split; [done |]. split; [| done].
  rewrite HlenM. by eapply getitems_length.
Qed.

End ShapeFacts.

(** ** When the attribute encoding returns *)

Section EncodingFacts.
Implicit Types (convs : list conversation) (keys : list string) (key k : string).
Implicit Types (st : gmap string attr_type * gmap string (gset string)).

Lemma NoDup_sorted_strings (s : gset string) : NoDup (sorted_strings s).
Proof. unfold sorted_strings. rewrite merge_sort_Permutation. apply NoDup_elements. Qed.

Lemma elem_of_sorted_strings (s : gset string) k : k ∈ sorted_strings s ↔ k ∈ s.
Proof. unfold sorted_strings. rewrite merge_sort_Permutation. apply elem_of_elements. Qed.

Lemma sorted_strings_singleton (s : string) : sorted_strings {[ s ]} = [s].
Proof. unfold sorted_strings. by rewrite elements_singleton. Qed.

Lemma detect_key_other convs st key k :
  k ≠ key →
  (detect_key convs st key).1 !! k = st.1 !! k ∧
  (detect_key convs st key).2 !! k = st.2 !! k.
Proof.
  intros Hne. unfold detect_key. destruct st as [types cats].
  destruct (first_non_none key convs) as [[| | | | | |]|]; simpl;
    rewrite ?lookup_insert_ne by done; done.
Qed.

Lemma detect_key_at convs st key :
  st.1 !! key = None → st.2 !! key = None →
  (detect_key convs st key).1 !! key = detected_type (first_non_none key convs) ∧
  (detect_key convs st key).2 !! key = detected_values (first_non_none key convs).
Proof.
  intros Ht Hc. unfold detect_key. destruct st as [types cats]. simpl in *.
  destruct (first_non_none key convs) as [[| | | | | |]|]; simpl;
    rewrite ?lookup_insert_eq, ?Hc; simpl; rewrite ?(right_id_L ∅ (∪)); done.
Qed.

Lemma detect_loop_other convs keys st k :
  k ∉ keys →
  (foldl (detect_key convs) st keys).1 !! k = st.1 !! k ∧
  (foldl (detect_key convs) st keys).2 !! k = st.2 !! k.
Proof.
  revert st. induction keys as [|key keys IH]; intros st Hk; simpl; [done |].
  apply not_elem_of_cons in Hk as [Hne Hk].
  destruct (IH (detect_key convs st key) Hk) as [-> ->].
  by apply detect_key_other.
Qed.

Lemma detect_loop_at convs keys st k :
  NoDup keys → k ∈ keys → st.1 !! k = None → st.2 !! k = None →
  (foldl (detect_key convs) st keys).1 !! k = detected_type (first_non_none k convs) ∧
  (foldl (detect_key convs) st keys).2 !! k = detected_values (first_non_none k convs).
Proof.
  intros Hnd. revert st. induction Hnd as [|key keys Hkey Hnd IH]; intros st Hk Ht Hc.
  - by apply elem_of_nil in Hk.
  - simpl. destruct (decide (k = key)) as [->|Hne].
    + destruct (detect_loop_other convs keys (detect_key convs st key) key Hkey) as [-> ->].
      by apply detect_key_at.
    + apply elem_of_cons in Hk as [?|Hk]; [done |].
      destruct (detect_key_other convs st key k Hne) as [Ht' Hc'].
      apply IH; [done | by rewrite Ht' | by rewrite Hc'].
Qed.

(** What the detection loop knows about a key of the batch. *)
Lemma detect_types_spec convs keys k :
  NoDup keys → k ∈ keys →
  (detect_types convs keys).1 !! k = detected_type (first_non_none k convs) ∧
  (detect_types convs keys).2 !! k = detected_values (first_non_none k convs).
Proof. intros. by apply detect_loop_at. Qed.

Lemma mapR_is_Ok {A B} (f : A → result B) (l : list A) :
  is_Ok (mapR f l) ↔ Forall (λ x, is_Ok (f x)) l.
Proof.
  induction l as [|x l IH]; simpl.
  - split; [constructor | by eexists].
  - rewrite Forall_cons, <- IH. split.
    + intros [ys Hys]. destruct (f x) as [y|]; simpl in *; [| done].
      destruct (mapR f l) as [ys'|]; simpl in *; [| done]. split; by eexists.
    + intros [[y ->] [ys ->]]. by eexists.
Qed.

Lemma num_column_is_Ok convs key :
  is_Ok (num_column key convs) ↔ Forall (λ c, floatable (get_attr c key)) convs.
Proof.
  unfold num_column. rewrite mapR_is_Ok. apply Forall_iff. intros c.
  unfold floatable. destruct (get_attr c key); try done. split; [done | by eexists].
Qed.

Lemma encode_key_is_Ok (types : gmap string attr_type) (cats : gmap string (gset string))
    convs key :
  types !! key = detected_type (first_non_none key convs) →
  cats !! key = detected_values (first_non_none key convs) →
  is_Ok (encode_key types cats convs key) ↔ encodable_key convs key.
Proof.
  intros Ht Hc. unfold encode_key, encodable_key. rewrite Ht, Hc.
  destruct (first_non_none key convs) as [[| | | | | |]|]; simpl;
    try (split; [by intros [? ?] | done]);
    try (split; [done | by eexists]);
    (rewrite <- num_column_is_Ok; split;
     [intros [? Hr]; destruct (num_column key convs); [by eexists | done]
     | intros [col ->]; by eexists]).
Qed.

(** A key whose first value is the text [s] gets the one column [key=s],
    whichever other texts the batch holds for it. *)
Lemma encode_key_categorical (types : gmap string attr_type)
    (cats : gmap string (gset string)) convs key (s : string) :
  types !! key = detected_type (first_non_none key convs) →
  cats !! key = detected_values (first_non_none key convs) →
  first_non_none key convs = Some (VStr s) →
  encode_key types cats convs key
  = Ok ([onehot_column key s convs], [key +:+ "=" +:+ s]).
Proof.
  intros Ht Hc Hs. unfold encode_key. rewrite Ht, Hc, Hs. simpl.
  by rewrite sorted_strings_singleton.
Qed.

Lemma encode_keys_is_Ok (types : gmap string attr_type) (cats : gmap string (gset string))
    convs keys :
  is_Ok (encode_keys types cats convs keys)
  ↔ Forall (λ key, is_Ok (encode_key types cats convs key)) keys.
Proof.
  induction keys as [|key keys IH]; simpl.
  - split; [constructor | by eexists].
  - rewrite Forall_cons, <- IH. split.
    + intros [r Hr]. destruct (encode_key types cats convs key) as [[c n]|]; [| done].
      simpl in Hr. destruct (encode_keys types cats convs keys) as [[c' n']|]; [| done].
      split; by eexists.
    + intros [[[c n] ->] [[c' n'] ->]]. by eexists.
Qed.

(** The attribute encoding returns exactly on the encodable batches. *)
Theorem encode_attributes_is_Ok convs :
  is_Ok (encode_attributes convs) ↔ encodable convs.
Proof.
  unfold encode_attributes, encodable. destruct convs as [|c0 convs'].
  - split; [| by eexists]. intros _ key Hkey. unfold all_keys in Hkey. simpl in Hkey.
    by apply elem_of_empty in Hkey.
  - set (convs := c0 :: convs'). destruct (decide (all_keys convs = ∅)) as [Hempty|Hne].
    + split; [| by eexists]. intros _ key Hkey. rewrite Hempty in Hkey.
      by apply elem_of_empty in Hkey.
    + pose proof (detect_types_spec convs (sorted_strings (all_keys convs))) as Hspec.
      destruct (detect_types convs (sorted_strings (all_keys convs))) as [types cats].
      simpl in Hspec.
      assert (is_Ok (encode_keys types cats convs (sorted_strings (all_keys convs)))
              ↔ ∀ key, key ∈ all_keys convs → encodable_key convs key) as <-.
      { rewrite encode_keys_is_Ok, Forall_forall. apply forall_proper. intros key.
        rewrite elem_of_sorted_strings. split.
        - intros H Hkey. specialize (H Hkey).
          destruct (Hspec key) as [Ht Hc];
            [apply NoDup_sorted_strings | by apply elem_of_sorted_strings |].
          by apply (encode_key_is_Ok types cats).
        - intros H Hkey. specialize (H Hkey).
          destruct (Hspec key) as [Ht Hc];
            [apply NoDup_sorted_strings | by apply elem_of_sorted_strings |].
          by apply (encode_key_is_Ok types cats). }
      destruct (encode_keys types cats convs _) as [[fvs names]|e]; simpl.
      * split; [by eexists |]. intros _. destruct fvs; by eexists.
      * split; [by intros [? ?] | by intros [? ?]].
Qed.

(** Every categorical key of a batch is encoded by one column, named after
    the first text seen for the key. *)
Lemma categorical_key_single_column convs key (s : string) :
  key ∈ all_keys convs → first_non_none key convs = Some (VStr s) →
  encode_key (detect_types convs (sorted_strings (all_keys convs))).1
    (detect_types convs (sorted_strings (all_keys convs))).2 convs key
  = Ok ([onehot_column key s convs], [key +:+ "=" +:+ s]).
Proof.
  intros Hkey Hs.
  destruct (detect_types_spec convs (sorted_strings (all_keys convs)) key) as [Ht Hc];
    [apply NoDup_sorted_strings | by apply elem_of_sorted_strings |].
  by apply encode_key_categorical.
Qed.

Lemma first_non_none_all_None convs key :
  Forall (λ c, get_attr c key = VNone) convs → first_non_none key convs = None.
Proof. induction 1 as [|c convs Hc _ IH]; simpl; [done |]. by rewrite Hc. Qed.

(** A key that is [None] in every record that carries it makes the
    attribute encoding raise. *)
Lemma null_key_not_encodable convs key :
  key ∈ all_keys convs → Forall (λ c, get_attr c key = VNone) convs →
  ¬ is_Ok (encode_attributes convs).
Proof.
  intros Hkey Hnone Hok. apply encode_attributes_is_Ok in Hok.
  specialize (Hok key Hkey). unfold encodable_key in Hok.
  by rewrite first_non_none_all_None in Hok.
Qed.

Lemma Rsum_replicate (n : nat) (c : R) : Rsum (replicate n c) = (INR n * c)%R.
Proof.
  induction n as [|n IH]; [simpl; lra |].
  rewrite S_INR. simpl. rewrite IH. lra.
Qed.

(** A column without variance is centred and left unscaled: it becomes a
    column of zeros. *)
Lemma scale_column_constant (n : nat) (c : R) :
  scale_column (replicate n c) = replicate n 0%R.
Proof.
  destruct n as [|n]; [done |].
  assert (INR (S n) ≠ 0%R) as Hn by (apply not_0_INR; lia).
  assert (mean (replicate (S n) c) = c) as Hmean.
  { unfold mean. rewrite Rsum_replicate, length_replicate. by field. }
  assert (variance (replicate (S n) c) = 0%R) as Hvar.
  { unfold variance. rewrite Hmean, fmap_replicate, Rsum_replicate, length_replicate.
    by field. }
  unfold scale_column. rewrite Hmean, Hvar, sqrt_0.
  rewrite fmap_replicate. f_equal. unfold Rdiv. lra.
Qed.

End EncodingFacts.

(** ** Partitions *)

Section PartitionFacts.
Context {A : Type}.

Lemma join_Forall2_Permutation (ls1 ls2 : list (list A)) :
  Forall2 (≡ₚ) ls1 ls2 → mjoin ls1 ≡ₚ mjoin ls2.
Proof.
  induction 1 as [|l1 l2 ls1 ls2 Hl _ IH]; [done |]. simpl. by rewrite Hl, IH.
Qed.

Lemma join_NoDup_position {B} (h : B → list A) (l : list B) (i j : nat) (b b' : B) (x : A) :
  NoDup (mjoin (h <$> l)) → l !! i = Some b → l !! j = Some b' →
  x ∈ h b → x ∈ h b' → i = j.
Proof.
  revert i j. induction l as [|b0 l IH]; intros i j Hnd Hi Hj Hx Hx'; [done |].
  rewrite fmap_cons in Hnd. simpl in Hnd.
  apply NoDup_app in Hnd as (_ & Hdisj & Hnd).
  assert (∀ n b1, l !! n = Some b1 → x ∈ h b1 → x ∈ mjoin (h <$> l)) as Hin.
  { intros n b1 Hn Hb1. apply list_elem_of_join. exists (h b1). split; [done |].
    apply list_elem_of_fmap_2. by eapply list_elem_of_lookup_2. }
  destruct i as [|i], j as [|j]; simpl in *.
  - done.
  - injection Hi as <-. exfalso. eapply Hdisj; [done | by eapply Hin].
  - injection Hj as <-. exfalso. eapply Hdisj; [done | by eapply Hin].
  - f_equal. by eapply IH.
Qed.

Lemma join_NoDup_part {B} (h : B → list A) (l : list B) (b : B) :
  NoDup (mjoin (h <$> l)) → b ∈ l → NoDup (h b).
Proof.
  induction l as [|b0 l IH]; intros Hnd Hb; [by apply elem_of_nil in Hb |].
  rewrite fmap_cons in Hnd. simpl in Hnd.
  apply NoDup_app in Hnd as (Hb0 & _ & Hnd).
  apply elem_of_cons in Hb as [->|Hb]; [done | by apply IH].
Qed.

Lemma map_cell_unique {V} (g : V → list A) (m : gmap string V)
    (k k' : string) (v v' : V) (x : A) :
  NoDup (mjoin (g <$> (map_to_list m).*2)) →
  m !! k = Some v → m !! k' = Some v' → x ∈ g v → x ∈ g v' → k = k'.
Proof.
  intros Hnd Hk Hk' Hx Hx'.
  apply elem_of_map_to_list, list_elem_of_lookup in Hk as [i Hi].
  apply elem_of_map_to_list, list_elem_of_lookup in Hk' as [j Hj].
  rewrite <- list_fmap_compose in Hnd.
  assert (i = j) as ->
    by (eapply (join_NoDup_position (g ∘ snd) _ i j (k, v) (k', v')); done).
  congruence.
Qed.

Lemma map_cell_NoDup {V} (g : V → list A) (m : gmap string V) (k : string) (v : V) :
  NoDup (mjoin (g <$> (map_to_list m).*2)) → m !! k = Some v → NoDup (g v).
Proof.
  intros Hnd Hk. apply elem_of_map_to_list in Hk.
  rewrite <- list_fmap_compose in Hnd.
  by apply (join_NoDup_part (g ∘ snd) _ (k, v)) in Hnd.
Qed.

Lemma map_cell_exists {V} (g : V → list A) (m : gmap string V) (x : A) :
  x ∈ mjoin (g <$> (map_to_list m).*2) → ∃ k v, m !! k = Some v ∧ x ∈ g v.
Proof.
  intros Hx. apply list_elem_of_join in Hx as (l & Hx & Hl).
  apply list_elem_of_fmap in Hl as (v & -> & Hv).
  apply list_elem_of_fmap in Hv as ([k v'] & -> & Hkv).
  apply elem_of_map_to_list in Hkv. by exists k, v'.
Qed.

End PartitionFacts.

Lemma fmap_idfun {B} (l : list B) : (λ x, x) <$> l = l.
Proof. apply list_fmap_id. Qed.

Lemma cluster_members_elem (m : gmap string (list string)) (s i : string) (l : list string) :
  m !! s = Some l → i ∈ l → i ∈ cluster_members m.
Proof.
  intros Hs Hi. unfold cluster_members. apply list_elem_of_join. exists l.
  split; [done |]. apply list_elem_of_fmap. exists (s, l). split; [done |].
  by apply elem_of_map_to_list.
Qed.

(** A taxonomy whose member lists add up to a duplicate-free list of ids
    puts every id in exactly one cell. *)
Lemma taxonomy_cells_unique (t : gmap string (gmap string (list string)))
    (ids : list string) (i : string) :
  NoDup ids → taxonomy_members t ≡ₚ ids → i ∈ ids →
  ∃ c s, in_cell t c s i ∧ ∀ c' s', in_cell t c' s' i → c' = c ∧ s' = s.
Proof.
  intros Hnd Hperm Hi. rewrite <- Hperm in Hnd, Hi. unfold taxonomy_members in *.
  destruct (map_cell_exists cluster_members t i Hi) as (c & m & Hc & Him).
  unfold cluster_members in Him.
  assert (i ∈ mjoin ((λ l : list string, l) <$> (map_to_list m).*2)) as Him'
    by (by rewrite fmap_idfun).
  destruct (map_cell_exists (λ l, l) m i Him') as (s & l & Hs & Hil).
  exists c, s. split; [by exists m, l |].
  intros c' s' (m' & l' & Hc' & Hs' & Hil').
  assert (c' = c) as ->.
  { eapply (map_cell_unique cluster_members t); [done | done | done | | ].
    - by eapply cluster_members_elem.
    - by eapply cluster_members_elem. }
  split; [done |]. assert (m' = m) as -> by congruence.
  pose proof (map_cell_NoDup cluster_members t c m Hnd Hc) as Hm.
  unfold cluster_members in Hm. rewrite <- (fmap_idfun (map_to_list m).*2) in Hm.
  by eapply (map_cell_unique (λ l, l) m s' s l' l i).
Qed.

(** ** The run of perform_clustering *)

Section ClusteringFacts.

Variable linkage_matrix : Type.
Variable linkage : list R → linkage_matrix.
Variable fcluster : linkage_matrix → Z → list Z.

(** SciPy's contract: cutting the hierarchy built from the condensed
    distances of [n] observations labels each of the [n] observations. *)
Hypothesis fcluster_length : ∀ (y : list R) (n : nat) (k : Z),
  2 ≤ n → 2 * length y = n * (n - 1) → length (fcluster (linkage y) k) = n.

Implicit Types (ids : list string) (labels : list Z) (D : matrix).

Lemma high_level_loop_spec ids labels (cs : list Z) (acc : gmap string (list string)) :
  length labels = length ids →
  high_level_loop ids labels cs acc
  = Ok (foldl (λ m c, <[pretty c := select_label c labels ids]> m) acc cs).
Proof.
  intros Hlen. revert acc. induction cs as [|c cs IH]; intros acc; simpl; [done |].
  rewrite getitems_np_where by done. simpl. apply IH.
Qed.

Lemma subcluster_loop_spec ids (cluster_indices : list nat) (members : list string)
    (sub_labels ss : list Z) (acc : gmap string (list string)) :
  length sub_labels = length cluster_indices →
  getitems ids cluster_indices = Ok members →
  subcluster_loop ids cluster_indices sub_labels ss acc
  = Ok (foldl (λ m s, <[pretty s := select_label s sub_labels members]> m) acc ss).
Proof.
  intros Hlen Hmem. revert acc. induction ss as [|s ss IH]; intros acc; simpl; [done |].
  rewrite mask_select_labels by done. simpl.
  assert (getitems ids (select_label s sub_labels cluster_indices)
          = Ok (select_label s sub_labels members)) as ->.
  { apply getitems_Forall2, select_label_Forall2. by apply getitems_Forall2. }
  simpl. apply IH.
Qed.

Lemma length_inner_labels ids labels D (k2 c : Z) :
  length labels = length ids → square (length ids) D →
  length (inner_labels linkage fcluster D k2 labels c)
  = length (select_label c labels ids).
Proof.
  intros Hlen HD. unfold inner_labels.
  rewrite <- (length_np_where_select labels ids c Hlen).
  destruct (length (np_where labels c) <? 2) eqn:Hsmall.
  - apply length_replicate.
  - apply Nat.ltb_ge in Hsmall.
    destruct (submatrix_square (length ids) D (np_where labels c)) as (M & -> & HM);
      [done | rewrite <- Hlen; apply np_where_in_range |].
    apply fcluster_length; [done |]. by apply length_squareform.
Qed.

Lemma group_map_single (x : string) : group_map [0%Z] [x] = {[ "0" := [x] ]}.
Proof. unfold group_map. simpl. by rewrite insert_empty. Qed.

Lemma subcluster_one_spec ids labels D (k2 c : Z) :
  length labels = length ids → square (length ids) D → c ∈ labels →
  subcluster_one linkage fcluster ids D k2 labels c
  = Ok (group_map (inner_labels linkage fcluster D k2 labels c) (select_label c labels ids)).
Proof.
  intros Hlen HD Hc. unfold subcluster_one, inner_labels.
  pose proof (length_np_where_select labels ids c Hlen) as Hn.
  pose proof (select_label_nonempty labels ids c Hlen Hc) as Hne.
  rewrite getitems_np_where by done.
  destruct (length (np_where labels c) <? 2) eqn:Hsmall; simpl.
  - apply Nat.ltb_lt in Hsmall.
    destruct (select_label c labels ids) as [|x [|x' xs]] eqn:Hsel; simpl in Hn;
      [done | | lia].
    rewrite Hn. simpl. by rewrite group_map_single.
  - apply Nat.ltb_ge in Hsmall.
    destruct (submatrix_square (length ids) D (np_where labels c)) as (M & HM & HMsq);
      [done | rewrite <- Hlen; apply np_where_in_range |].
    rewrite HM. simpl.
    rewrite (subcluster_loop_spec ids _ (select_label c labels ids)).
    + done.
    + apply fcluster_length; [done |]. by apply length_squareform.
    + by apply getitems_np_where.
Qed.

Lemma subclusters_loop_spec ids labels D (k2 : Z) (cs : list Z)
    (acc : gmap string (gmap string (list string))) :
  length labels = length ids → square (length ids) D → (∀ c, c ∈ cs → c ∈ labels) →
  subclusters_loop linkage fcluster ids D k2 labels cs acc
  = Ok (foldl (λ m c, <[pretty c := group_map (inner_labels linkage fcluster D k2 labels c)
                                       (select_label c labels ids)]> m) acc cs).
Proof.
  intros Hlen HD. revert acc. induction cs as [|c cs IH]; intros acc Hcs.
  - done.
  - simpl. rewrite subcluster_one_spec; [| done | done | apply Hcs; by left].
    simpl. by rewrite IH by (intros c' Hc'; apply Hcs; by right).
Qed.

(** What a run on an accepted, encodable batch returns. *)
Lemma perform_clustering_spec (convs : list conversation) (w : weights) (k1 k2 : Z)
    (X : matrix) (names : list string) :
  2 ≤ length convs → homogeneous (semantic_embedding <$> convs) →
  encode_attributes convs = Ok (X, names) →
  ∃ labels D,
    length labels = length convs ∧ square (length convs) D ∧
    perform_clustering linkage fcluster convs w k1 k2
    = Ok (Clustering
            (group_map labels (conv_id <$> convs))
            (foldl (λ m c, <[pretty c := group_map (inner_labels linkage fcluster D k2 labels c)
                                           (select_label c labels (conv_id <$> convs))]> m)
               ∅ (np_unique labels))
            (cosine_similarity
               (create_weighted_vectors (semantic_embedding <$> convs) X
                  ((λ c, [encode_outcome (outcome c)]) <$> convs) w))).
Proof.
  intros HN Hdim Henc. unfold perform_clustering, np_array.
  destruct (length convs <? 2) eqn:Hsmall; [apply Nat.ltb_lt in Hsmall; lia |].
  destruct (decide (homogeneous (semantic_embedding <$> convs))); [| done].
  simpl. rewrite Henc. simpl.
  set (V := create_weighted_vectors _ _ _ _).
  set (D := (λ r : list R, (λ x, (1 - x)%R) <$> r) <$> cosine_similarity V).
  set (labels := fcluster (linkage (squareform D)) _).
  assert (length V = length convs) as HV.
  { unfold V. rewrite length_create_weighted_vectors; rewrite !length_fmap; try done.
    by eapply encode_attributes_rows. }
  assert (square (length convs) D) as HD.
  { rewrite <- HV. apply square_distance. }
  assert (length labels = length convs) as Hlab.
  { apply fcluster_length; [done |]. by apply length_squareform. }
  exists labels, D. split; [done |]. split; [done |].
  rewrite high_level_loop_spec by (by rewrite length_fmap). simpl.
  rewrite subclusters_loop_spec.
  - done.
  - by rewrite length_fmap.
  - by rewrite length_fmap.
  - intros c. apply elem_of_np_unique.
Qed.

End ClusteringFacts.

(** ** The taxonomy *)

Section TaxonomyClaims.

Variable linkage_matrix : Type.
Variable linkage : list R → linkage_matrix.
Variable fcluster : linkage_matrix → Z → list Z.

Hypothesis fcluster_length : ∀ (y : list R) (n : nat) (k : Z),
  2 ≤ n → 2 * length y = n * (n - 1) → length (fcluster (linkage y) k) = n.

(** The run returns exactly on the valid batches. *)
Lemma perform_clustering_returns (convs : list conversation) (w : weights) (k1 k2 : Z) :
  is_Ok (perform_clustering linkage fcluster convs w k1 k2) ↔ valid_batch convs.
Proof.
  split.
  - unfold perform_clustering, np_array, valid_batch. intros [r Hr].
    destruct (length convs <? 2) eqn:Hsmall; [done |]. apply Nat.ltb_ge in Hsmall.
    destruct (decide (homogeneous (semantic_embedding <$> convs))); [| done].
    simpl in Hr. destruct (encode_attributes convs) as [a|e]; [| done].
    split; [done |]. split; [done | by eexists].
  - intros (HN & Hdim & [[X names] Henc]).
    destruct (perform_clustering_spec _ linkage fcluster fcluster_length convs w k1 k2
                X names HN Hdim Henc) as (labels & D & _ & _ & Hrun).
    by eexists.
Qed.

Lemma subclusters_members (ids : list string) (labels : list Z) (D : matrix) (k2 : Z) :
  length labels = length ids → square (length ids) D →
  taxonomy_members
    (foldl (λ m c, <[pretty c := group_map (inner_labels linkage fcluster D k2 labels c)
                                   (select_label c labels ids)]> m) ∅ (np_unique labels))
  ≡ₚ ids.
Proof.
  intros Hlen HD. unfold taxonomy_members.
  rewrite (insert_loop_to_list
             (λ c, group_map (inner_labels linkage fcluster D k2 labels c)
                     (select_label c labels ids))); [| apply NoDup_np_unique | done].
  rewrite map_to_list_empty, app_nil_r, <- !list_fmap_compose.
  etransitivity; [| apply (select_label_unique_partition labels ids Hlen)].
  apply join_Forall2_Permutation, Forall2_fmap, Forall_Forall2_diag, Forall_forall.
  intros c _. simpl. apply group_map_members.
  by apply (length_inner_labels _ linkage fcluster fcluster_length).
Qed.

(** C2. On a valid batch with pairwise distinct ids the run returns, the
    member lists of all
    subclusters together are a rearrangement of the input ids, so there are
    no duplicates and no omissions, and every input id lies in exactly one
    (top-level cluster, subcluster) pair. *)
Theorem taxonomy_is_partition (convs : list conversation) (w : weights) (k1 k2 : Z) :
  valid_batch convs → NoDup (conv_id <$> convs) →
  ∃ r, perform_clustering linkage fcluster convs w k1 k2 = Ok r ∧
       taxonomy_members (subclusters r) ≡ₚ conv_id <$> convs ∧
       NoDup (taxonomy_members (subclusters r)) ∧
       ∀ i, i ∈ conv_id <$> convs →
         ∃ c s, in_cell (subclusters r) c s i ∧
                ∀ c' s', in_cell (subclusters r) c' s' i → c' = c ∧ s' = s.
Proof.
  intros (HN & Hdim & [[X names] Henc]) Hnd.
  destruct (perform_clustering_spec _ linkage fcluster fcluster_length convs w k1 k2 X names
              HN Hdim Henc) as (labels & D & Hlab & HD & Hrun).
  eexists. split; [exact Hrun |]. simpl.
  assert (taxonomy_members
            (foldl (λ m c, <[pretty c := group_map (inner_labels linkage fcluster D k2 labels c)
                                           (select_label c labels (conv_id <$> convs))]> m)
               ∅ (np_unique labels)) ≡ₚ conv_id <$> convs) as Hperm.
  { apply subclusters_members; rewrite length_fmap; done. }
  split; [done |]. split; [by rewrite Hperm |].
  intros i Hi. by apply (taxonomy_cells_unique _ (conv_id <$> convs)).
Qed.

(** C10. The two returned maps agree: they have the same keys, and the
    member lists of [subclusters[c]] together are a rearrangement of
    [high_level_clusters[c]]. *)
Theorem maps_mutually_consistent (convs : list conversation) (w : weights) (k1 k2 : Z) :
  valid_batch convs →
  ∃ r, perform_clustering linkage fcluster convs w k1 k2 = Ok r ∧
       dom (subclusters r) = dom (high_level_clusters r) ∧
       ∀ c members, high_level_clusters r !! c = Some members →
         ∃ m, subclusters r !! c = Some m ∧ cluster_members m ≡ₚ members.
Proof.
  intros (HN & Hdim & [[X names] Henc]).
  destruct (perform_clustering_spec _ linkage fcluster fcluster_length convs w k1 k2 X names
              HN Hdim Henc) as (labels & D & Hlab & HD & Hrun).
  eexists. split; [exact Hrun |]. simpl. split.
  - rewrite group_map_dom.
    rewrite (insert_loop_dom
               (λ c, group_map (inner_labels linkage fcluster D k2 labels c)
                       (select_label c labels (conv_id <$> convs)))), dom_empty_L.
    by rewrite (left_id_L ∅ (∪)).
  - intros c members Hc.
    apply group_map_lookup_Some in Hc as (c0 & Hc0 & -> & ->).
    eexists. split.
    + apply (insert_loop_lookup
               (λ c, group_map (inner_labels linkage fcluster D k2 labels c)
                       (select_label c labels (conv_id <$> convs)))).
      by apply elem_of_np_unique.
    + apply group_map_members.
      apply (length_inner_labels _ linkage fcluster fcluster_length);
        rewrite ?length_fmap; done.
Qed.


End TaxonomyClaims.

(** ** What a run goes through, whatever the cut returns *)

Section RunFacts.

Variable linkage_matrix : Type.
Variable linkage : list R → linkage_matrix.
Implicit Types (fcluster : linkage_matrix → Z → list Z).
Implicit Types (ids : list string) (labels : list Z) (D : matrix).

Lemma bind_Raise {A B} (r : result A) (f : A → result B) (e : exn) :
  r ≫= f = Raise e → r = Raise e ∨ ∃ a, r = Ok a ∧ f a = Raise e.
Proof. destruct r as [a|e']; simpl; [right; by exists a | intros [= ->]; by left]. Qed.

Lemma mapR_Raise {A B} (f : A → result B) (l : list A) (e : exn) :
  mapR f l = Raise e → ∃ x, x ∈ l ∧ f x = Raise e.
Proof.
  induction l as [|x l IH]; simpl; [done |].
  destruct (f x) as [y|e'] eqn:Hfx; simpl.
  - destruct (mapR f l) as [ys|e'] eqn:Hl; simpl; [done |].
    intros [= ->]. destruct IH as (x' & Hx' & Hfx'); [done |].
    exists x'. split; [by right | done].
  - intros [= ->]. exists x. split; [by left | done].
Qed.

Lemma getitems_Raise {A} (l : list A) (idxs : list nat) (e : exn) :
  getitems l idxs = Raise e → e = IndexError.
Proof.
  intros H. apply mapR_Raise in H as (i & _ & Hi).
  destruct (l !! i); [done | by injection Hi as <-].
Qed.

Lemma submatrix_Raise D (idxs : list nat) (e : exn) :
  submatrix D idxs = Raise e → e = IndexError.
Proof.
  unfold submatrix. intros H. apply bind_Raise in H as [H|(rows & _ & H)].
  - by eapply getitems_Raise.
  - apply mapR_Raise in H as (r & _ & H). by eapply getitems_Raise.
Qed.


Lemma py_float_later (v : value) (e : exn) : py_float v = Raise e → later_exn e.
Proof.
  destruct v as [|b|z|x| |s|o]; simpl; try done; try (by intros [= <-]).
  - destruct (Z.abs z <? float_limit)%Z; [done | by intros [= <-]].
  - destruct (float_of_str s); [done | |]; intros [= <-]; simpl; auto.
Qed.

Lemma encode_keys_Raise (types : gmap string attr_type) (cats : gmap string (gset string))
    (convs : list conversation) (keys : list string) (e : exn) :
  encode_keys types cats convs keys = Raise e →
  ∃ key, key ∈ keys ∧ encode_key types cats convs key = Raise e.
Proof.
  induction keys as [|key keys IH]; simpl; [done |].
  destruct (encode_key types cats convs key) as [[c n]|e'] eqn:Hkey; simpl.
  - destruct (encode_keys types cats convs keys) as [[c' n']|e'] eqn:Hkeys; simpl; [done |].
    intros [= ->]. destruct IH as (k & Hk & Hek); [done |].
    exists k. split; [by right | done].
  - intros [= ->]. exists key. split; [by left | done].
Qed.

Lemma encode_key_later (types : gmap string attr_type) (cats : gmap string (gset string))
    (convs : list conversation) (key : string) (e : exn) :
  encode_key types cats convs key = Raise e → later_exn e.
Proof.
  unfold encode_key. destruct (default Categorical (types !! key)).
  - done.
  - intros H. apply bind_Raise in H as [H|(col & _ & H)]; [| done].
    apply mapR_Raise in H as (c & _ & H).
    destruct (get_attr c key) eqn:Hv; try done; rewrite <- Hv in H;
      by apply py_float_later in H.
  - destruct (cats !! key); [done | by intros [= <-]].
Qed.

Lemma encode_attributes_later (convs : list conversation) (e : exn) :
  encode_attributes convs = Raise e → later_exn e.
Proof.
  unfold encode_attributes. destruct convs as [|c0 convs']; [done |].
  destruct (decide _); [done |].
  destruct (detect_types _ _) as [types cats].
  destruct (encode_keys _ _ _ _) as [[fvs names]|e'] eqn:Hkeys; simpl.
  - by destruct fvs.
  - intros [= ->]. apply encode_keys_Raise in Hkeys as (key & _ & Hkey).
    by eapply encode_key_later.
Qed.

Lemma py_min_later (c : count) (m : Z) (e : exn) : py_min c m = Raise e → later_exn e.
Proof.
  destruct c as [k|x| |]; simpl; try done; try (by intros [= <-]).
  destruct (decide _); [done | by intros [= <-]].
Qed.

Lemma high_level_loop_later ids labels (cs : list Z) (acc : gmap string (list string))
    (e : exn) :
  high_level_loop ids labels cs acc = Raise e → later_exn e.
Proof.
  revert acc. induction cs as [|c cs IH]; intros acc; simpl; [done |].
  intros H. apply bind_Raise in H as [H|(members & _ & H)]; [| by eapply IH].
  by apply getitems_Raise in H as ->.
Qed.

Lemma subcluster_loop_later ids (cluster_indices : list nat) (sub_labels ss : list Z)
    (acc : gmap string (list string)) (e : exn) :
  subcluster_loop ids cluster_indices sub_labels ss acc = Raise e → later_exn e.
Proof.
  revert acc. induction ss as [|s ss IH]; intros acc; simpl; [done |].
  intros H. apply bind_Raise in H as [H|(idx & _ & H)].
  - unfold mask_select in H. destruct (decide _); [done | by injection H as <-].
  - apply bind_Raise in H as [H|(members & _ & H)]; [| by eapply IH].
    by apply getitems_Raise in H as ->.
Qed.

Lemma subcluster_one_later fcluster ids D (k2 : count) labels (c : Z) (e : exn) :
  subcluster_one linkage fcluster ids D k2 labels c = Raise e → later_exn e.
Proof.
  unfold subcluster_one. destruct (length (np_where labels c) <? 2).
  - intros H. apply bind_Raise in H as [H|(members & _ & H)]; [| done].
    by apply getitems_Raise in H as ->.
  - intros H. apply bind_Raise in H as [H|(M & _ & H)].
    { by apply submatrix_Raise in H as ->. }
    apply bind_Raise in H as [H|(n & _ & H)]; [by eapply py_min_later |].
    by eapply subcluster_loop_later.
Qed.

Lemma subclusters_loop_later fcluster ids D (k2 : count) labels (cs : list Z)
    (acc : gmap string (gmap string (list string))) (e : exn) :
  subclusters_loop linkage fcluster ids D k2 labels cs acc = Raise e → later_exn e.
Proof.
  revert acc. induction cs as [|c cs IH]; intros acc; simpl; [done |].
  intros H. apply bind_Raise in H as [H|(m & _ & H)]; [| by eapply IH].
  by eapply subcluster_one_later.
Qed.

(** Past the count check a run raises none but the later exceptions. *)
Lemma perform_clustering_later fcluster (convs : list conversation) (w : weights)
    (k1 k2 : count) (e : exn) :
  2 ≤ length convs →
  perform_clustering linkage fcluster convs w k1 k2 = Raise e → later_exn e.
Proof.
  intros HN. unfold perform_clustering, np_array.
  assert ((length convs <? 2) = false) as -> by (apply Nat.ltb_ge; lia).
  destruct (decide (homogeneous (semantic_embedding <$> convs))); simpl;
    [| intros [= <-]; simpl; auto].
  intros H. apply bind_Raise in H as [H|([X names] & _ & H)];
    [by eapply encode_attributes_later |].
  apply bind_Raise in H as [H|(n & _ & H)]; [by eapply py_min_later |].
  apply bind_Raise in H as [H|(hl & _ & H)]; [by eapply high_level_loop_later |].
  apply bind_Raise in H as [H|(subs & _ & H)]; [| done].
  by eapply subclusters_loop_later.
Qed.

(** What every returning run went through. *)
Lemma perform_clustering_inv fcluster (convs : list conversation) (w : weights)
    (k1 k2 : count) (r : clustering) :
  perform_clustering linkage fcluster convs w k1 k2 = Ok r →
  2 ≤ length convs ∧ homogeneous (semantic_embedding <$> convs) ∧
  ∃ X names, encode_attributes convs = Ok (X, names) ∧
    similarity_matrix r
    = cosine_similarity
        (create_weighted_vectors (semantic_embedding <$> convs) X
           ((λ c, [encode_outcome (outcome c)]) <$> convs) w).
Proof.
  unfold perform_clustering, np_array.
  destruct (length convs <? 2) eqn:Hsmall; [done |]. apply Nat.ltb_ge in Hsmall.
  destruct (decide (homogeneous (semantic_embedding <$> convs))); [| done].
  simpl. destruct (encode_attributes convs) as [[X names]|e]; [| done]. simpl.
  destruct (py_min k1 _) as [n|]; [| done]. simpl.
  destruct (high_level_loop _ _ _ _) as [hl|]; [| done]. simpl.
  destruct (subclusters_loop _ _ _ _ _ _ _ _) as [subs|]; [| done]. simpl.
  intros [= <-]. split; [done |]. split; [done |]. by exists X, names.
Qed.




End RunFacts.

(** ** The cuts, the entry check and the similarity matrix *)

Section NormFacts.
Local Open Scope R_scope.

Lemma l2norm_between (v : list R) (a b : R) :
  0 <= a → 0 <= b → a * a <= dot v v <= b * b → a <= l2norm v <= b.
Proof.
  intros Ha Hb [Hlo Hhi]. unfold l2norm. split.
  - rewrite <- (sqrt_square a) by done. by apply sqrt_le_1_alt.
  - rewrite <- (sqrt_square b) by done. by apply sqrt_le_1_alt.
Qed.

Lemma l2norm_pair_0 (x : R) : 0 <= x → l2norm [x; 0] = x.
Proof.
  intros Hx. unfold l2norm, dot. simpl.
  replace (x * x + (0 * 0 + 0)) with (x * x) by lra. by apply sqrt_square.
Qed.

Lemma ten_eps_bounds : / 10 ^ 15 < 10 * float_eps ∧ 10 * float_eps < / 10 ^ 12.
Proof. unfold float_eps. simpl. lra. Qed.

End NormFacts.

Section CutClaims.

Variable linkage_matrix : Type.
Variable linkage : list R → linkage_matrix.
Variable fcluster : linkage_matrix → Z → list Z.

Hypothesis fcluster_length : ∀ (y : list R) (n : nat) (k : Z),
  2 ≤ n → 2 * length y = n * (n - 1) → length (fcluster (linkage y) k) = n.


End CutClaims.

Section BoundaryClaims.
Local Open Scope R_scope.

Variable linkage_matrix : Type.
Variable linkage : list R → linkage_matrix.
Variable fcluster : linkage_matrix → Z → list Z.

(** C5, as amended.  Whenever the run returns, the similarity matrix is
    symmetric; the diagonal entry of a record is within 1e-6 of 1 when the
    norm of its composite vector lies between 1e-12 and 1e100, and within
    1e-6 of 0 when that norm is at most 1e-15, the zero vector included:
    [normalize] leaves a row whose norm is below ten machine epsilons as it
    is. *)
Theorem similarity_symmetric_diagonal (convs : list conversation) (w : weights)
    (k1 k2 : count) (r : clustering) (X : matrix) (names : list string) :
  perform_clustering linkage fcluster convs w k1 k2 = Ok r →
  encode_attributes convs = Ok (X, names) →
  (∀ i j, entry (similarity_matrix r) i j = entry (similarity_matrix r) j i) ∧
  ∀ i v,
    create_weighted_vectors (semantic_embedding <$> convs) X
      ((λ c, [encode_outcome (outcome c)]) <$> convs) w !! i = Some v →
    (/ 10 ^ 12 <= l2norm v <= 10 ^ 100 →
       Rabs (entry (similarity_matrix r) i i - 1) <= / 10 ^ 6) ∧
    (l2norm v <= / 10 ^ 15 →
       Rabs (entry (similarity_matrix r) i i) <= / 10 ^ 6).
Proof.
  intros Hrun Henc.
  apply perform_clustering_inv in Hrun as (_ & _ & X' & names' & Henc' & ->).
  rewrite Henc in Henc'. injection Henc' as <- <-.
  destruct ten_eps_bounds as [Hlo Hhi]. split.
  - apply cosine_similarity_symmetric.
  - intros i v Hv. pose proof (l2norm_nonneg v) as Hn. split.
    + intros [Hbig _]. rewrite (cosine_similarity_diag_one _ _ _ Hv) by lra.
      rewrite Rminus_diag, Rabs_R0. simpl. lra.
    + intros Hsmall. rewrite (cosine_similarity_diag_small _ _ _ Hv) by lra.
      rewrite Rabs_pos_eq by nra. simpl in *. nra.
Qed.

(** C6, as amended.  A batch of fewer than two records is rejected by the
    first statement of [perform_clustering] with its [ValueError], whatever
    else is wrong with the batch and whatever counts are asked for, and the
    endpoint answers with an error; nothing is returned.  On a batch of at
    least two records that check passes: the run does not raise this
    [ValueError]. *)
Theorem entry_point_guard (convs : list conversation) (w : weights) (k1 k2 : count) :
  (length convs < 2 →
     perform_clustering linkage fcluster convs w k1 k2
     = Raise (ValueError "Need at least 2 conversations to cluster") ∧
     ∀ o1 o2,
       cluster_conversations linkage fcluster (ClusterRequest convs w o1 o2)
       = HttpError 500)%nat ∧
  (2 ≤ length convs →
     perform_clustering linkage fcluster convs w k1 k2
     ≠ Raise (ValueError "Need at least 2 conversations to cluster"))%nat.
Proof.
  split.
  - intros Hshort. apply Nat.ltb_lt in Hshort.
    unfold cluster_conversations, perform_clustering. simpl. by rewrite Hshort.
  - intros HN Hrun. apply perform_clustering_later in Hrun; [| done].
    simpl in Hrun. by destruct Hrun.
Qed.

(** C8, as amended.  With the weights (1, 0, 0), whenever the run returns
    and every embedding is the zero vector or has a norm between 1e-6 and
    1e100, every entry of the returned similarity matrix is within 1e-6 of
    the entry of the cosine similarity matrix of the raw embeddings. *)
Theorem semantic_weight_isolation (convs : list conversation) (k1 k2 : count)
    (r : clustering) :
  perform_clustering linkage fcluster convs semantic_only k1 k2 = Ok r →
  Forall (in_range (/ 10 ^ 6)) (semantic_embedding <$> convs) →
  ∀ i j,
    Rabs (entry (similarity_matrix r) i j
          - entry (cosine_similarity (semantic_embedding <$> convs)) i j) <= / 10 ^ 6.
Proof.
  intros Hrun Hrange i j.
  apply perform_clustering_inv in Hrun as (_ & _ & X & names & Henc & ->).
  rewrite semantic_only_similarity; rewrite ?length_fmap; try done.
  - rewrite Rminus_diag, Rabs_R0. simpl. lra.
  - by eapply encode_attributes_rows.
Qed.

End BoundaryClaims.

(** ** The outcome block *)

Section OutcomeFacts.
Local Open Scope R_scope.

Lemma encode_outcome_cases (o : string) :
  encode_outcome o = 1 ∨ encode_outcome o = 0 ∨ encode_outcome o = 1 / 2.
Proof.
  unfold encode_outcome. repeat destruct (decide _); auto.
Qed.

Lemma l2norm_singleton (x : R) : 0 <= x → l2norm [x] = x.
Proof.
  intros Hx. unfold l2norm, dot. simpl.
  replace (x * x + 0) with (x * x) by lra. by apply sqrt_square.
Qed.

Lemma normalize_row_singleton (x : R) :
  0 <= x → normalize_row [x] = [x / (x + epsilon)].
Proof. intros Hx. unfold normalize_row. by rewrite l2norm_singleton. Qed.

Lemma normalize_row_zero : normalize_row [0] = [0].
Proof. rewrite normalize_row_singleton by lra. f_equal. unfold Rdiv. lra. Qed.

(** The guarded normalisation sends one half and one to within two epsilon
    below 1. *)
Lemma normalized_outcome_near_one (x : R) :
  x = 1 ∨ x = 1 / 2 → 1 - 2 * epsilon <= x / (x + epsilon) < 1.
Proof.
  pose proof epsilon_pos as He. intros Hx.
  assert (0 < x + epsilon) as Hpos by (destruct Hx; lra).
  assert (1 / 2 <= x) as Hhalf by (destruct Hx; lra).
  split.
  - apply (Rmult_le_reg_r (x + epsilon)); [done |].
    unfold Rdiv. rewrite Rmult_assoc, Rinv_l by lra. nra.
  - apply (Rmult_lt_reg_r (x + epsilon)); [done |].
    unfold Rdiv. rewrite Rmult_assoc, Rinv_l by lra. lra.
Qed.

Lemma normalized_outcomes_close (x y : R) :
  x = 1 ∨ x = 1 / 2 → y = 1 ∨ y = 1 / 2 →
  Rabs (x / (x + epsilon) - y / (y + epsilon)) <= epsilon.
Proof.
  pose proof epsilon_pos as He. intros Hx Hy.
  assert (0 < x + epsilon) as Hxpos by (destruct Hx; lra).
  assert (0 < y + epsilon) as Hypos by (destruct Hy; lra).
  assert (x / (x + epsilon) - y / (y + epsilon)
          = epsilon * (x - y) / ((x + epsilon) * (y + epsilon))) as -> by (field; lra).
  assert (1 / 2 <= (x + epsilon) * (y + epsilon) ∨ x = y) as Hden
    by (destruct Hx as [-> | ->], Hy as [-> | ->]; auto; left; nra).
  destruct Hden as [Hden | ->].
  - assert (0 < (x + epsilon) * (y + epsilon)) as Hprod by nra.
    apply Rabs_le. split.
    + apply (Rmult_le_reg_r ((x + epsilon) * (y + epsilon))); [done |].
      unfold Rdiv. rewrite Rmult_assoc, Rinv_l by lra.
      destruct Hx as [-> | ->], Hy as [-> | ->]; nra.
    + apply (Rmult_le_reg_r ((x + epsilon) * (y + epsilon))); [done |].
      unfold Rdiv. rewrite Rmult_assoc, Rinv_l by lra.
      destruct Hx as [-> | ->], Hy as [-> | ->]; nra.
  - replace (epsilon * (y - y) / ((y + epsilon) * (y + epsilon))) with 0
      by (unfold Rdiv; lra).
    rewrite Rabs_R0. lra.
Qed.

Lemma create_weighted_vectors_lookup (S A O : matrix) (w : weights) (i : nat)
    (s a o : list R) :
  S !! i = Some s → A !! i = Some a → O !! i = Some o →
  create_weighted_vectors S A O w !! i
  = Some ((Rmult (w_semantic w) <$> normalize_row s)
          ++ (Rmult (w_attributes w)
                <$> (if (0 <? ncols A)%nat then normalize_row a else [0]))
          ++ (Rmult (w_outcome w) <$> normalize_row o)).
Proof.
  intros Hs Ha Ho. unfold create_weighted_vectors, concatenate3, scale_matrix, normalize_rows.
  rewrite !lookup_zip_with, !list_lookup_fmap, Hs, Ho. simpl.
  destruct (0 <? ncols A)%nat.
  - by rewrite list_lookup_fmap, Ha.
  - unfold zeros. rewrite lookup_replicate_2; [done |].
    by eapply lookup_lt_Some.
Qed.


(** C9. Two rows of a batch with the same embedding and the same encoded
    attributes, whose outcome labels both encode to a positive number: the
    guarded normalisation maps both outcome scalars to within two epsilon of
    1, the two composite vectors are equal outside their last entry, the
    outcome block, and there they differ by at most the outcome weight times
    epsilon.  An outcome that encodes to 0 stays 0: the outcome block only
    tells zero from nonzero. *)
Theorem outcome_block_collapses (S A O : matrix) (w : weights) (i j : nat)
    (s a : list R) (o1 o2 : string) :
  S !! i = Some s → S !! j = Some s → A !! i = Some a → A !! j = Some a →
  O !! i = Some [encode_outcome o1] → O !! j = Some [encode_outcome o2] →
  0 < encode_outcome o1 → 0 < encode_outcome o2 →
  ∃ p n1 n2,
    normalize_row [encode_outcome o1] = [n1] ∧
    normalize_row [encode_outcome o2] = [n2] ∧
    Rabs (n1 - 1) <= 2 * epsilon ∧ Rabs (n2 - 1) <= 2 * epsilon ∧
    create_weighted_vectors S A O w !! i = Some (p ++ [w_outcome w * n1]) ∧
    create_weighted_vectors S A O w !! j = Some (p ++ [w_outcome w * n2]) ∧
    Rabs (w_outcome w * n1 - w_outcome w * n2) <= Rabs (w_outcome w) * epsilon ∧
    normalize_row [encode_outcome "unsatisfied"] = [0].
Proof.
  intros Hsi Hsj Hai Haj Hoi Hoj H1 H2.
  assert (encode_outcome o1 = 1 ∨ encode_outcome o1 = 1 / 2) as Hx
    by (destruct (encode_outcome_cases o1) as [?|[?|?]]; auto; lra).
  assert (encode_outcome o2 = 1 ∨ encode_outcome o2 = 1 / 2) as Hy
    by (destruct (encode_outcome_cases o2) as [?|[?|?]]; auto; lra).
  set (x := encode_outcome o1) in *. set (y := encode_outcome o2) in *.
  pose proof (normalized_outcome_near_one x Hx) as Hnx.
  pose proof (normalized_outcome_near_one y Hy) as Hny.
  eexists _, (x / (x + epsilon)), (y / (y + epsilon)).
  split; [apply normalize_row_singleton; lra |].
  split; [apply normalize_row_singleton; lra |].
  split; [apply Rabs_le; lra |]. split; [apply Rabs_le; lra |].
  split; [| split; [| split]].
  - rewrite (create_weighted_vectors_lookup S A O w i s a [x]) by done.
    rewrite normalize_row_singleton by lra. by rewrite (assoc_L (++)).
  - rewrite (create_weighted_vectors_lookup S A O w j s a [y]) by done.
    rewrite normalize_row_singleton by lra. by rewrite (assoc_L (++)).
  - rewrite <- Rmult_minus_distr_l, Rabs_mult.
    apply Rmult_le_compat_l; [apply Rabs_pos |]. by apply normalized_outcomes_close.
  - assert (encode_outcome "unsatisfied" = 0) as -> by reflexivity.
    apply normalize_row_zero.
Qed.

End OutcomeFacts.

Lemma outcome_block_collapses_witness :
  ∃ p n1 n2,
    normalize_row [encode_outcome "satisfied"] = [n1] ∧
    normalize_row [encode_outcome "unclear"] = [n2] ∧
    (Rabs (n1 - 1) <= 2 * epsilon)%R ∧ (Rabs (n2 - 1) <= 2 * epsilon)%R ∧
    create_weighted_vectors [[1%R; 0%R]; [1%R; 0%R]] (zeros 2 1)
      [[encode_outcome "satisfied"]; [encode_outcome "unclear"]] default_weights !! 0
    = Some (p ++ [(w_outcome default_weights * n1)%R]) ∧
    create_weighted_vectors [[1%R; 0%R]; [1%R; 0%R]] (zeros 2 1)
      [[encode_outcome "satisfied"]; [encode_outcome "unclear"]] default_weights !! 1
    = Some (p ++ [(w_outcome default_weights * n2)%R]) ∧
    (Rabs (w_outcome default_weights * n1 - w_outcome default_weights * n2)
     <= Rabs (w_outcome default_weights) * epsilon)%R ∧
    normalize_row [encode_outcome "unsatisfied"] = [0%R].
Proof.
  apply (outcome_block_collapses [[1%R; 0%R]; [1%R; 0%R]] (zeros 2 1)
           [[encode_outcome "satisfied"]; [encode_outcome "unclear"]] default_weights
           0 1 [1%R; 0%R] [0%R] "satisfied" "unclear");
    try reflexivity.
  - assert (encode_outcome "satisfied" = 1%R) as -> by reflexivity. lra.
  - assert (encode_outcome "unclear" = (1 / 2)%R) as -> by reflexivity. lra.
Defined.

(** Embeddings of different lengths stop the run at the array construction. *)
Lemma ragged_batch_raises (linkage_matrix : Type) (linkage : list R → linkage_matrix)
    (fcluster : linkage_matrix → Z → list Z) (w : weights) (k1 k2 : Z) :
  perform_clustering linkage fcluster ragged_batch w k1 k2
  = Raise (ValueError "inhomogeneous shape").
Proof. reflexivity. Qed.

(** ** Attribute encoding on the sample batches *)

(** C1. Key [k] carries the texts [a] and [b], yet the encoding has the
    single column [k=a]: the detection loop leaves the loop over the records
    at the first value, so only that value is ever collected. *)
Theorem categorical_first_value_only :
  ∃ X, encode_attributes categorical_batch = Ok (X, ["k=a"]) ∧ length <$> X = [1; 1].
Proof. eexists. split; reflexivity. Qed.

Lemma sqrt_quarter : sqrt (1 / 4) = (1 / 2)%R.
Proof.
  replace (1 / 4)%R with ((1 / 2) * (1 / 2))%R by lra.
  apply sqrt_square. lra.
Qed.

Lemma scale_column_flag : scale_column [1%R; 0%R] = [1%R; (-1)%R].
Proof.
  assert (mean [1%R; 0%R] = (1 / 2)%R) as Hmean by (unfold mean; simpl; lra).
  assert (variance [1%R; 0%R] = (1 / 4)%R) as Hvar.
  { unfold variance. rewrite Hmean. simpl. lra. }
  unfold scale_column. rewrite Hmean, Hvar, sqrt_quarter.
  unfold is_constant_feature. rewrite bool_decide_eq_false_2.
  - simpl. f_equal; [lra |]. f_equal. lra.
  - simpl. unfold float_eps. lra.
Qed.

(** C3. Key [flag] is [True] in the first record and [False] in the second;
    the returned column is 1 and -1, not 1 and 0: the scaler runs over every
    column of the matrix, the boolean ones included. *)
Theorem boolean_column_standardized :
  encode_attributes flag_batch = Ok ([[1%R]; [(-1)%R]], ["flag"]).
Proof.
  transitivity (Ok (fit_transform (transpose 2 [[1%R; 0%R]]), ["flag"])).
  - reflexivity.
  - unfold fit_transform. simpl.
    change (fmap scale_column [[1%R; 0%R]]) with [scale_column [1%R; 0%R]].
    rewrite scale_column_flag. reflexivity.
Qed.

(** C4. Key [k] is [None] in every record: the encoding raises [KeyError],
    so does the run, and the endpoint answers 500. *)
Theorem null_key_raises (linkage_matrix : Type) (linkage : list R → linkage_matrix)
    (fcluster : linkage_matrix → Z → list Z) (w : weights) (k1 k2 : Z)
    (o1 o2 : option count) :
  encode_attributes null_batch = Raise (KeyError "k") ∧
  perform_clustering linkage fcluster null_batch w k1 k2 = Raise (KeyError "k") ∧
  cluster_conversations linkage fcluster (ClusterRequest null_batch w o1 o2)
  = HttpError 500.
Proof. repeat split; reflexivity. Qed.

(** ** The library models on sample values *)

(** What [float] makes of some texts. *)
Lemma float_of_str_samples :
  float_of_str "1e2" = FloatIs 100 ∧
  float_of_str " 3 " = FloatIs 3 ∧
  float_of_str "1_000" = FloatIs 1000 ∧
  float_of_str "-2.5" = FloatIs (-25 / 10) ∧
  float_of_str "inf" = FloatBeyond ∧
  float_of_str "NaN" = FloatBeyond ∧
  float_of_str "1e999" = FloatBeyond ∧
  float_of_str "abc" = FloatError ∧
  float_of_str "1__0" = FloatError ∧
  float_of_str "" = FloatError.
Proof. repeat split; reflexivity. Qed.

(** An [int] too large for a double. *)
Lemma py_float_overflow : py_float (VInt (10 ^ 400)) = Raise OverflowError.
Proof. reflexivity. Qed.

(** A column that the scaler takes for constant is centred only: the values
    [1e16] and [1e16 + 4] become -2 and 2. *)
Lemma scale_column_near_constant :
  scale_column [10 ^ 16; 10 ^ 16 + 4]%R = [-2; 2]%R.
Proof.
  assert (mean [10 ^ 16; 10 ^ 16 + 4]%R = (10 ^ 16 + 2)%R) as Hmean
    by (unfold mean; simpl; lra).
  assert (variance [10 ^ 16; 10 ^ 16 + 4]%R = 4%R) as Hvar.
  { unfold variance. rewrite Hmean. simpl. lra. }
  unfold scale_column. rewrite Hmean, Hvar.
  unfold is_constant_feature. rewrite bool_decide_eq_true_2.
  - simpl. f_equal; [lra |]. f_equal. lra.
  - simpl. unfold float_eps. lra.
Qed.

(** ** Closed instances *)

(** The stand-in cut labels every observation, as SciPy does. *)
Lemma toy_fcluster_length (y : list R) (n : nat) (k : Z) :
  2 ≤ n → 2 * length y = n * (n - 1) →
  length (toy_fcluster (toy_linkage y) k) = n.
Proof.
  intros Hn Hy. unfold toy_fcluster, toy_linkage.
  rewrite length_fmap, length_seq, Hy.
  rewrite (Nat.sqrt_unique (n * (n - 1)) (n - 1)); [lia | nia].
Qed.




Lemma zero_weights_rows (S X O : matrix) :
  Forall all_zero (create_weighted_vectors S X O zero_weights).
Proof.
  unfold create_weighted_vectors, concatenate3. simpl.
  repeat apply zip_with_app_all_zero; apply scale_matrix_0_all_zero.
Qed.

(** With all three weights zero every composite vector is the zero vector
    and the whole diagonal of the similarity matrix is 0, whatever the cut
    does afterwards. *)
Lemma zero_weights_diagonal (linkage_matrix : Type) (linkage : list R → linkage_matrix)
    (fcluster : linkage_matrix → Z → list Z) (convs : list conversation) (k1 k2 : Z) :
  (∀ (y : list R) (n : nat) (k : Z),
     2 ≤ n → 2 * length y = n * (n - 1) → length (fcluster (linkage y) k) = n) →
  valid_batch convs →
  ∃ r, perform_clustering linkage fcluster convs zero_weights k1 k2 = Ok r ∧
       ∀ i, i < length convs → entry (similarity_matrix r) i i = 0%R.
Proof.
  intros Hcut (HN & Hdim & [[X names] Henc]).
  destruct (perform_clustering_spec _ linkage fcluster Hcut convs zero_weights k1 k2 X names
              HN Hdim Henc) as (labels & D & _ & _ & Hrun).
  eexists. split; [exact Hrun |]. simpl. intros i Hi.
  set (V := create_weighted_vectors _ _ _ _).
  assert (length V = length convs) as HV.
  { unfold V. rewrite length_create_weighted_vectors; rewrite !length_fmap; try done.
    by eapply encode_attributes_rows. }
  destruct (lookup_lt_is_Some_2 V i) as [v Hv]; [lia |].
  apply (cosine_similarity_diag_zero V i v Hv).
  pose proof (zero_weights_rows (semantic_embedding <$> convs) X
                ((λ c, [encode_outcome (outcome c)]) <$> convs)) as Hrows.
  rewrite Forall_forall in Hrows. apply Hrows. by eapply list_elem_of_lookup_2.
Qed.

Lemma taxonomy_is_partition_witness :
  ∃ r, perform_clustering toy_linkage toy_fcluster plain_batch default_weights 5 3 = Ok r ∧
       taxonomy_members (subclusters r) ≡ₚ conv_id <$> plain_batch ∧
       NoDup (taxonomy_members (subclusters r)) ∧
       ∀ i, i ∈ conv_id <$> plain_batch →
         ∃ c s, in_cell (subclusters r) c s i ∧
                ∀ c' s', in_cell (subclusters r) c' s' i → c' = c ∧ s' = s.
Proof.
  apply (taxonomy_is_partition _ toy_linkage toy_fcluster toy_fcluster_length).
  - valid_sample.
  - apply (bool_decide_unpack _). vm_compute. exact I.
Defined.

Lemma maps_mutually_consistent_witness :
  ∃ r, perform_clustering toy_linkage toy_fcluster plain_batch default_weights 5 3 = Ok r ∧
       dom (subclusters r) = dom (high_level_clusters r) ∧
       ∀ c members, high_level_clusters r !! c = Some members →
         ∃ m, subclusters r !! c = Some m ∧ cluster_members m ≡ₚ members.
Proof.
  apply (maps_mutually_consistent _ toy_linkage toy_fcluster toy_fcluster_length).
  valid_sample.
Defined.


Section SampleNorms.
Local Open Scope R_scope.

Lemma encode_outcome_satisfied : encode_outcome "satisfied" = 1.
Proof. reflexivity. Qed.

Lemma l2norm_pair_1 : 1 <= l2norm [1; 1] <= 2.
Proof. apply l2norm_between; unfold dot; simpl; lra. Qed.

(** The first composite vector of the three plain records under the default
    weights. *)
Lemma plain_batch_first_vector :
  ∃ v,
    create_weighted_vectors (semantic_embedding <$> plain_batch) (zeros 3 1)
      ((λ c, [encode_outcome (outcome c)]) <$> plain_batch) default_weights !! 0%nat
    = Some v ∧ / 10 ^ 12 <= l2norm v <= 10 ^ 100.
Proof.
  eexists. split.
  - apply (create_weighted_vectors_lookup _ _ _ _ 0 [1; 0] [0] [1]); reflexivity.
  - apply l2norm_between; [simpl; lra | simpl; lra |].
    unfold normalize_row. simpl.
    rewrite (l2norm_pair_0 1), !l2norm_singleton by lra.
    unfold dot, epsilon. simpl. lra.
Qed.

End SampleNorms.

Lemma similarity_symmetric_diagonal_witness :
  ∃ r v,
    perform_clustering toy_linkage toy_fcluster plain_batch default_weights 5 3 = Ok r ∧
    create_weighted_vectors (semantic_embedding <$> plain_batch) (zeros 3 1)
      ((λ c, [encode_outcome (outcome c)]) <$> plain_batch) default_weights !! 0
    = Some v ∧
    (/ 10 ^ 12 <= l2norm v <= 10 ^ 100)%R ∧
    (∀ i j, entry (similarity_matrix r) i j = entry (similarity_matrix r) j i) ∧
    (Rabs (entry (similarity_matrix r) 0 0 - 1) <= / 10 ^ 6)%R.
Proof.
  destruct (proj2 (perform_clustering_returns _ toy_linkage toy_fcluster toy_fcluster_length
                     plain_batch default_weights 5 3)) as [r Hr]; [valid_sample |].
  destruct plain_batch_first_vector as (v & Hv & Hrange).
  destruct (similarity_symmetric_diagonal _ toy_linkage toy_fcluster plain_batch
              default_weights 5%Z 3%Z r (zeros 3 1) [] Hr eq_refl) as [Hsym Hdiag].
  exists r, v. split; [done |]. split; [done |]. split; [done |]. split; [done |].
  by apply (Hdiag 0%nat v Hv).
Defined.

(** C5, counterexample.  Three records and the weights (0, 0, 0): the run
    returns and the first diagonal entry of the similarity matrix is 0, not
    within 1e-6 of 1. *)
Lemma similarity_diagonal_counterexample :
  2 ≤ length plain_batch ∧
  ∃ r, perform_clustering toy_linkage toy_fcluster plain_batch zero_weights 5 3 = Ok r ∧
       entry (similarity_matrix r) 0 0 = 0%R ∧
       ¬ (Rabs (entry (similarity_matrix r) 0 0 - 1) <= / 1000000)%R.
Proof.
  split; [simpl; lia |].
  destruct (zero_weights_diagonal _ toy_linkage toy_fcluster plain_batch 5 3
              toy_fcluster_length) as (r & Hrun & Hdiag); [valid_sample |].
  exists r. split; [done |].
  assert (entry (similarity_matrix r) 0 0 = 0%R) as H0 by (apply Hdiag; simpl; lia).
  split; [done |]. rewrite H0.
  replace (0 - 1)%R with (- (1))%R by lra. rewrite Rabs_Ropp, Rabs_R1. lra.
Qed.

(** C6, witness.  One record: the run raises the [ValueError] of the count
    check and the endpoint answers 500, whatever counts the request holds. *)
Lemma entry_point_guard_witness :
  perform_clustering toy_linkage toy_fcluster single_batch default_weights 5 3
  = Raise (ValueError "Need at least 2 conversations to cluster") ∧
  ∀ o1 o2,
    cluster_conversations toy_linkage toy_fcluster
      (ClusterRequest single_batch default_weights o1 o2)
    = HttpError 500.
Proof.
  apply (entry_point_guard _ toy_linkage toy_fcluster single_batch default_weights 5%Z 3%Z).
  simpl. lia.
Defined.

(** C6, counterexample.  Two records whose key [x] is the number 1 in the
    first and the text [abc] in the second: the count check passes and the
    run raises the [ValueError] of [float], which the endpoint answers with
    status 400. *)
Lemma entry_point_counterexample :
  2 ≤ length mixed_batch ∧
  perform_clustering toy_linkage toy_fcluster mixed_batch default_weights 5 3
  = Raise (ValueError "could not convert string to float") ∧
  cluster_conversations toy_linkage toy_fcluster
    (ClusterRequest mixed_batch default_weights None None)
  = HttpError 400.
Proof. split; [simpl; lia |]. split; reflexivity. Qed.


Section TinyEmbedding.
Local Open Scope R_scope.

Lemma plain_batch_in_range :
  Forall (in_range (/ 10 ^ 6)) (semantic_embedding <$> plain_batch).
Proof.
  simpl. repeat (apply Forall_cons_2;
    [right; apply l2norm_between; unfold dot; simpl; lra |]).
  apply Forall_nil_2.
Qed.

(** The raw embedding of norm [1e-16] is left as it is by [normalize]; after
    the guarded normalisation its norm is about [1e-8] and [normalize]
    divides by it. *)
Lemma tiny_row_raw : l2norm [/ 10 ^ 16; 0] < 10 * float_eps.
Proof. rewrite l2norm_pair_0 by (simpl; lra). unfold float_eps. simpl. lra. Qed.

Lemma tiny_row_normalized : 10 * float_eps <= l2norm (normalize_row [/ 10 ^ 16; 0]).
Proof.
  rewrite l2norm_normalize_row, l2norm_pair_0 by (simpl; lra).
  unfold float_eps, epsilon. simpl. lra.
Qed.

End TinyEmbedding.

Lemma semantic_weight_isolation_witness :
  ∃ r, perform_clustering toy_linkage toy_fcluster plain_batch semantic_only 5 3 = Ok r ∧
       Forall (in_range (/ 10 ^ 6)) (semantic_embedding <$> plain_batch) ∧
       ∀ i j,
         (Rabs (entry (similarity_matrix r) i j
                - entry (cosine_similarity (semantic_embedding <$> plain_batch)) i j)
          <= / 10 ^ 6)%R.
Proof.
  destruct (proj2 (perform_clustering_returns _ toy_linkage toy_fcluster toy_fcluster_length
                     plain_batch semantic_only 5 3)) as [r Hr]; [valid_sample |].
  exists r. split; [done |]. split; [apply plain_batch_in_range |].
  apply (semantic_weight_isolation _ toy_linkage toy_fcluster plain_batch 5%Z 3%Z r Hr).
  apply plain_batch_in_range.
Defined.

(** C8, counterexample.  Two records, the first with the embedding
    [1e-16, 0], and the weights (1, 0, 0): the run returns; the first
    diagonal entry of its similarity matrix is 1, that of the cosine
    similarity matrix of the raw embeddings is 1e-32, and the two are not
    within one half of each other. *)
Lemma semantic_isolation_counterexample :
  ∃ r, perform_clustering toy_linkage toy_fcluster tiny_batch semantic_only 5 3 = Ok r ∧
       entry (similarity_matrix r) 0 0 = 1%R ∧
       entry (cosine_similarity (semantic_embedding <$> tiny_batch)) 0 0 = (/ 10 ^ 32)%R ∧
       ¬ (Rabs (entry (similarity_matrix r) 0 0
                - entry (cosine_similarity (semantic_embedding <$> tiny_batch)) 0 0)
          <= / 2)%R.
Proof.
  destruct (proj2 (perform_clustering_returns _ toy_linkage toy_fcluster toy_fcluster_length
                     tiny_batch semantic_only 5 3)) as [r Hr]; [valid_sample |].
  exists r. split; [done |].
  apply perform_clustering_inv in Hr as (_ & _ & X & names & Henc & Hsim).
  assert (entry (similarity_matrix r) 0 0 = 1%R) as H1.
  { rewrite Hsim, semantic_only_normalized; rewrite ?length_fmap; try done;
      [| by eapply encode_attributes_rows].
    apply (cosine_similarity_diag_one _ 0 (normalize_row [(/ 10 ^ 16)%R; 0%R]));
      [reflexivity | apply tiny_row_normalized]. }
  assert (entry (cosine_similarity (semantic_embedding <$> tiny_batch)) 0 0
          = (/ 10 ^ 32)%R) as H2.
  { rewrite (cosine_similarity_diag_small _ 0 [(/ 10 ^ 16)%R; 0%R]);
      [| reflexivity | apply tiny_row_raw].
    rewrite l2norm_pair_0 by (simpl; lra). simpl. field. }
  split; [done |]. split; [done |]. rewrite H1, H2.
  rewrite Rabs_pos_eq by (simpl; lra). simpl. lra.
Qed.

(** * Further properties of the encoding, the run and the endpoint *)

(** ** The range of the similarity entries *)

Section SimilarityRange.
Local Open Scope R_scope.

Lemma square_le_le (u v : R) : 0 <= v → u * u <= v * v → u <= v.
Proof. intros Hv Huv. destruct (Rle_or_lt u v) as [|Hlt]; [done |]. nra. Qed.

Lemma dot_cauchy_schwarz (a b : list R) : dot a b * dot a b <= dot a a * dot b b.
Proof.
  revert b. induction a as [|x a IH]; intros [|y b].
  - rewrite !dot_nil_l. lra.
  - rewrite !dot_nil_l. lra.
  - rewrite !dot_nil_r. lra.
  - rewrite !dot_cons. specialize (IH b).
    pose proof (dot_self_nonneg a) as HA. pose proof (dot_self_nonneg b) as HB.
    set (s := dot a b) in *. set (A := dot a a) in *. set (B := dot b b) in *.
    assert (2 * x * y * s <= x * x * B + y * y * A) as Hmid.
    { assert (0 <= x * x) as Hxx by nra. assert (0 <= y * y) as Hyy by nra.
      apply square_le_le; [apply Rplus_le_le_0_compat; by apply Rmult_le_pos |].
      pose proof (Rle_0_sqr (x * x * B - y * y * A)) as Hsq. unfold Rsqr in Hsq.
      assert (x * x * (y * y) * (s * s) <= x * x * (y * y) * (A * B)) as Hprod
        by (apply Rmult_le_compat_l; [by apply Rmult_le_pos | done]).
      nra. }
    nra.
Qed.

(** In the model every entry of a cosine similarity matrix lies between -1
    and 1, and so does what [entry] reads outside the matrix. *)
Lemma cosine_similarity_entry_range (X : matrix) (i j : nat) :
  -1 <= entry (cosine_similarity X) i j <= 1.
Proof.
  rewrite entry_cosine_similarity.
  destruct (X !! i) as [a|]; [| lra]. destruct (X !! j) as [b|]; [| lra].
  pose proof (dot_cauchy_schwarz (sk_normalize_row a) (sk_normalize_row b)) as Hcs.
  assert (∀ v, 0 <= dot (sk_normalize_row v) (sk_normalize_row v) <= 1) as Hself.
  { intros v. rewrite dot_sk_normalize_self. pose proof (l2norm_nonneg v).
    destruct (decide _) as [Hs|]; [| lra].
    assert (10 * float_eps <= 1) by (unfold float_eps; lra). nra. }
  pose proof (Hself a) as Ha. pose proof (Hself b) as Hb.
  set (d := dot (sk_normalize_row a) (sk_normalize_row b)) in *.
  assert (d * d <= 1) as Hd by nra.
  split; [| apply square_le_le; lra].
  assert (- d <= 1) by (apply square_le_le; lra). lra.
Qed.

End SimilarityRange.

Section CompositeShape.
Local Open Scope R_scope.

(** X2. On blocks with the same positive number of rows, of widths [D], [a]
    and 1, the composite matrix has as many rows and every row has width
    [D + max 1 a + 1]: an attribute block without columns is replaced by
    one zero column. *)
Theorem composite_shape (S A O : matrix) (w : weights) (D a : nat) :
  S ≠ [] → length A = length S → length O = length S →
  Forall (λ r, length r = D) S → Forall (λ r, length r = a) A →
  Forall (λ r, length r = 1%nat) O →
  length (create_weighted_vectors S A O w) = length S ∧
  Forall (λ r, length r = (D + Nat.max 1 a + 1)%nat) (create_weighted_vectors S A O w).
Proof.
  intros _ HA HO HS HAw HOw.
  pose proof (length_create_weighted_vectors S A O w HA HO) as HV.
  split; [done |]. apply Forall_lookup. intros i v Hv.
  assert (i < length S)%nat as Hi by (rewrite <- HV; by eapply lookup_lt_Some).
  destruct (lookup_lt_is_Some_2 S i Hi) as [s Hs].
  destruct (lookup_lt_is_Some_2 A i) as [ar Har]; [lia |].
  destruct (lookup_lt_is_Some_2 O i) as [o Ho]; [lia |].
  rewrite (create_weighted_vectors_lookup S A O w i s ar o Hs Har Ho) in Hv.
  injection Hv as <-.
  rewrite Forall_lookup in HS, HAw, HOw.
  unfold normalize_row. rewrite !length_app, !length_fmap.
  rewrite (HS i s Hs), (HOw i o Ho).
  assert (ncols A = a) as Hcols.
  { destruct A as [|r0 A']; [done |]. simpl. by apply (HAw 0%nat r0). }
  rewrite Hcols. destruct (0 <? a)%nat eqn:Hpos.
  - apply Nat.ltb_lt in Hpos. rewrite length_fmap, (HAw i ar Har). lia.
  - apply Nat.ltb_ge in Hpos. simpl. lia.
Qed.

Lemma scale_matrix_mult (c w : R) (X : matrix) :
  scale_matrix (c * w) X = scale_matrix c (scale_matrix w X).
Proof.
  unfold scale_matrix. rewrite <- list_fmap_compose. apply list_fmap_ext.
  intros i r _. simpl. rewrite <- list_fmap_compose. apply list_fmap_ext.
  intros j x _. simpl. lra.
Qed.

Lemma zip_with_app_scale (c : R) (A B : matrix) :
  zip_with app (scale_matrix c A) (scale_matrix c B) = scale_matrix c (zip_with app A B).
Proof.
  unfold scale_matrix. revert B. induction A as [|a A IH]; intros [|b B]; simpl; try done.
  rewrite fmap_app. f_equal. apply IH.
Qed.

Lemma create_weighted_vectors_scale (S A O : matrix) (w : weights) (c : R) :
  create_weighted_vectors S A O
    (Weights (c * w_semantic w) (c * w_attributes w) (c * w_outcome w))
  = scale_matrix c (create_weighted_vectors S A O w).
Proof.
  unfold create_weighted_vectors, concatenate3. simpl.
  by rewrite !scale_matrix_mult, !zip_with_app_scale.
Qed.

Lemma l2norm_scale (c : R) (v : list R) : l2norm (Rmult c <$> v) = Rabs c * l2norm v.
Proof.
  unfold l2norm.
  assert (dot (Rmult c <$> v) (Rmult c <$> v) = Rsqr c * dot v v) as ->.
  { rewrite (list_fmap_ext (Rmult c) (λ x, x * c) v) by (intros; simpl; lra).
    rewrite dot_scale. unfold Rsqr. lra. }
  rewrite sqrt_mult; [| apply Rle_0_sqr | apply dot_self_nonneg].
  by rewrite sqrt_Rsqr_abs.
Qed.

Lemma sk_normalize_row_scale (c : R) (v : list R) :
  c ≠ 0 → in_range (/ 10 ^ 12) v → in_range (/ 10 ^ 12) (Rmult c <$> v) →
  sk_normalize_row (Rmult c <$> v) = (λ x, x * (c / Rabs c)) <$> sk_normalize_row v.
Proof.
  intros Hc Hv Hcv. pose proof (Rabs_pos_lt c Hc) as Habs.
  destruct ten_eps_bounds as [_ Hten].
  destruct Hv as [Hz|[Hlo _]].
  - assert (all_zero (Rmult c <$> v)) as Hz'.
    { apply Forall_fmap. eapply Forall_impl; [exact Hz |]. intros x ->. simpl. lra. }
    rewrite !sk_normalize_row_all_zero by done.
    apply list_fmap_ext. intros i x Hx. simpl.
    unfold all_zero in Hz. rewrite Forall_forall in Hz.
    rewrite (Hz x) by (by eapply list_elem_of_lookup_2). lra.
  - assert (/ 10 ^ 12 <= l2norm (Rmult c <$> v)) as Hlo'.
    { destruct Hcv as [Hz|[? _]]; [| done]. apply l2norm_zero in Hz.
      rewrite l2norm_scale in Hz. assert (0 < / 10 ^ 12) by (simpl; lra). nra. }
    rewrite !sk_normalize_row_large by lra. rewrite l2norm_scale in *.
    rewrite <- !list_fmap_compose. apply list_fmap_ext. intros i x Hx. simpl.
    assert (0 < / 10 ^ 12) by (simpl; lra). field. split; lra.
Qed.

Lemma sign_sqr (c : R) : c ≠ 0 → c / Rabs c * (c / Rabs c) = 1.
Proof.
  intros Hc. pose proof (Rabs_pos_lt c Hc) as Habs.
  assert (Rabs c * Rabs c = c * c) as Hsq.
  { rewrite <- Rabs_mult. apply Rabs_pos_eq. nra. }
  apply (Rmult_eq_reg_r (Rabs c * Rabs c)); [| nra].
  rewrite Hsq at 2. field. lra.
Qed.

Lemma cosine_similarity_scale (c : R) (V : matrix) :
  c ≠ 0 → Forall (in_range (/ 10 ^ 12)) V →
  Forall (in_range (/ 10 ^ 12)) (scale_matrix c V) →
  cosine_similarity (scale_matrix c V) = cosine_similarity V.
Proof.
  intros Hc HV HcV. unfold cosine_similarity, sk_normalize.
  assert (sk_normalize_row <$> scale_matrix c V
          = (λ a, (λ x, x * (c / Rabs c)) <$> sk_normalize_row a) <$> V) as ->.
  { unfold scale_matrix. rewrite <- list_fmap_compose. apply list_fmap_ext.
    intros i a Ha. simpl. apply sk_normalize_row_scale; [done | |].
    - rewrite Forall_forall in HV. apply HV. by eapply list_elem_of_lookup_2.
    - rewrite Forall_forall in HcV. apply HcV. unfold scale_matrix.
      apply list_elem_of_lookup. exists i. by rewrite list_lookup_fmap, Ha. }
  rewrite <- !list_fmap_compose.
  apply list_fmap_ext. intros i a _. simpl. rewrite <- !list_fmap_compose.
  apply list_fmap_ext. intros j b _. simpl.
  rewrite dot_scale, sign_sqr by done. lra.
Qed.

(** X3. Multiplying the three weights by one nonzero factor changes no
    entry of the similarity matrix by more than 1e-6, provided every
    composite vector, before and after, is the zero vector or has a norm
    between 1e-12 and 1e100: there only the ratios of the weights matter. *)
Theorem weight_scale_invariance (S A O : matrix) (w : weights) (c : R) :
  c ≠ 0 →
  Forall (in_range (/ 10 ^ 12)) (create_weighted_vectors S A O w) →
  Forall (in_range (/ 10 ^ 12))
    (create_weighted_vectors S A O
       (Weights (c * w_semantic w) (c * w_attributes w) (c * w_outcome w))) →
  ∀ i j,
    Rabs (entry (cosine_similarity
                   (create_weighted_vectors S A O
                      (Weights (c * w_semantic w) (c * w_attributes w)
                         (c * w_outcome w)))) i j
          - entry (cosine_similarity (create_weighted_vectors S A O w)) i j)
    <= / 10 ^ 6.
Proof.
  intros Hc HV HcV i j. rewrite create_weighted_vectors_scale in *.
  rewrite cosine_similarity_scale by done.
  rewrite Rminus_diag, Rabs_R0. simpl. lra.
Qed.

End CompositeShape.

Lemma composite_shape_witness :
  [[1%R; 0%R]; [0%R; 1%R]] ≠ [] ∧
  length (create_weighted_vectors [[1%R; 0%R]; [0%R; 1%R]] (zeros 2 1)
            [[1%R]; [(1 / 2)%R]] default_weights) = 2 ∧
  Forall (λ r, length r = 2 + Nat.max 1 1 + 1)
    (create_weighted_vectors [[1%R; 0%R]; [0%R; 1%R]] (zeros 2 1)
       [[1%R]; [(1 / 2)%R]] default_weights).
Proof.
  split; [done |].
  apply (composite_shape [[1%R; 0%R]; [0%R; 1%R]] (zeros 2 1) [[1%R]; [(1 / 2)%R]]
           default_weights 2 1); try reflexivity; try done; repeat constructor.
Defined.

Section ScaledSample.
Local Open Scope R_scope.

Lemma l2norm_0_pair (x : R) : 0 <= x → l2norm [0; x] = x.
Proof.
  intros Hx. unfold l2norm, dot. simpl.
  replace (0 * 0 + (x * x + 0)) with (x * x) by lra. by apply sqrt_square.
Qed.

(** The composite vectors of two sample rows, under weights between one
    tenth and 2. *)
Lemma scaled_sample_in_range (w : weights) :
  1 / 10 <= w_semantic w <= 2 → 1 / 10 <= w_attributes w <= 2 →
  1 / 10 <= w_outcome w <= 2 →
  Forall (in_range (/ 10 ^ 12))
    (create_weighted_vectors [[1; 0]; [0; 1]] (zeros 2 1) [[1]; [1 / 2]] w).
Proof.
  intros Hs Ha Ho.
  unfold create_weighted_vectors, concatenate3, scale_matrix, normalize_rows,
    normalize_row. simpl.
  rewrite (l2norm_pair_0 1), (l2norm_0_pair 1), !l2norm_singleton by lra.
  assert (1 / (1 + epsilon) = 100000000 / 100000001) as -> by (unfold epsilon; lra).
  assert (1 / 2 / (1 / 2 + epsilon) = 50000000 / 50000001) as ->
    by (unfold epsilon; lra).
  assert (0 / (1 + epsilon) = 0) as -> by (unfold epsilon; lra).
  assert (0 / (0 + epsilon) = 0) as -> by (unfold epsilon; lra).
  repeat (apply Forall_cons_2;
    [right; apply l2norm_between; [simpl; lra | simpl; lra |];
     unfold dot; simpl; split; nra |]).
  apply Forall_nil_2.
Qed.

End ScaledSample.

Lemma weight_scale_invariance_witness :
  (2 ≠ 0)%R ∧
  Forall (in_range (/ 10 ^ 12))
    (create_weighted_vectors [[1%R; 0%R]; [0%R; 1%R]] (zeros 2 1) [[1%R]; [(1 / 2)%R]]
       default_weights) ∧
  Forall (in_range (/ 10 ^ 12))
    (create_weighted_vectors [[1%R; 0%R]; [0%R; 1%R]] (zeros 2 1) [[1%R]; [(1 / 2)%R]]
       (Weights (2 * w_semantic default_weights) (2 * w_attributes default_weights)
          (2 * w_outcome default_weights))) ∧
  ∀ i j,
    (Rabs (entry (cosine_similarity
                    (create_weighted_vectors [[1%R; 0%R]; [0%R; 1%R]] (zeros 2 1)
                       [[1%R]; [(1 / 2)%R]]
                       (Weights (2 * w_semantic default_weights)
                          (2 * w_attributes default_weights)
                          (2 * w_outcome default_weights)))) i j
           - entry (cosine_similarity
                      (create_weighted_vectors [[1%R; 0%R]; [0%R; 1%R]] (zeros 2 1)
                         [[1%R]; [(1 / 2)%R]] default_weights)) i j)
     <= / 10 ^ 6)%R.
Proof.
  assert (2 ≠ 0)%R as Hc by lra.
  pose proof (scaled_sample_in_range default_weights) as H1.
  pose proof (scaled_sample_in_range
                (Weights (2 * w_semantic default_weights)
                   (2 * w_attributes default_weights)
                   (2 * w_outcome default_weights))) as H2.
  simpl in H1, H2.
  split; [done |].
  split; [apply H1; lra |]. split; [apply H2; lra |].
  apply (weight_scale_invariance _ _ _ default_weights 2 Hc); [apply H1 | apply H2]; lra.
Defined.

Section OutcomeValues.
Local Open Scope R_scope.

Lemma lower_ascii_idem (c : ascii) : lower_ascii (lower_ascii c) = lower_ascii c.
Proof. destruct c as [[] [] [] [] [] [] [] []]; reflexivity. Qed.

Lemma lower_idem (s : string) : lower (lower s) = lower s.
Proof. induction s as [|c s IH]; simpl; [done |]. by rewrite lower_ascii_idem, IH. Qed.

(** X4. The outcome score depends on the label up to letter case only: it is
    1 exactly for the spellings of [satisfied], 0 exactly for those of
    [unsatisfied], and one half for every other text, the spellings of
    [unclear] and unknown labels alike. *)
Theorem encode_outcome_values (o : string) :
  (encode_outcome o = 1 ↔ lower o = "satisfied") ∧
  (encode_outcome o = 0 ↔ lower o = "unsatisfied") ∧
  (encode_outcome o = 1 / 2 ↔ lower o ≠ "satisfied" ∧ lower o ≠ "unsatisfied") ∧
  encode_outcome (lower o) = encode_outcome o.
Proof.
  split; [| split; [| split]].
  1-3: unfold encode_outcome; repeat destruct (decide _); split; intros H;
    try done; try lra; try congruence; try (split; congruence); by destruct H.
  unfold encode_outcome. by rewrite lower_idem.
Qed.

End OutcomeValues.

Section EncodingShape.
Implicit Types (convs : list conversation) (keys : list string) (key : string).

Lemma mapR_length {A B} (f : A → result B) (l : list A) (ys : list B) :
  mapR f l = Ok ys → length ys = length l.
Proof. intros H. apply mapR_Forall2 in H. symmetry. by eapply Forall2_length. Qed.

(** One key gives as many names as columns, at least one, and every column
    has one entry per record. *)
Lemma encode_key_shape (types : gmap string attr_type) (cats : gmap string (gset string))
    convs key (cols : matrix) (names : list string) :
  types !! key = detected_type (first_non_none key convs) →
  cats !! key = detected_values (first_non_none key convs) →
  encode_key types cats convs key = Ok (cols, names) →
  length cols = length names ∧ 1 ≤ length names ∧
  Forall (λ col, length col = length convs) cols.
Proof.
  intros Ht Hc. unfold encode_key. rewrite Ht, Hc.
  destruct (num_column key convs) as [col|] eqn:Hcol;
    destruct (first_non_none key convs) as [[| | | | | |]|]; simpl; try done;
    intros [= <- <-]; rewrite ?sorted_strings_singleton; simpl;
    (split; [done |]); (split; [lia |]); (constructor; [| done]);
    first [apply length_fmap | by eapply mapR_length].
Qed.

Lemma encode_keys_shape (types : gmap string attr_type) (cats : gmap string (gset string))
    convs keys (cols : matrix) (names : list string) :
  (∀ key, key ∈ keys →
     types !! key = detected_type (first_non_none key convs) ∧
     cats !! key = detected_values (first_non_none key convs)) →
  encode_keys types cats convs keys = Ok (cols, names) →
  length cols = length names ∧ length keys ≤ length names ∧
  Forall (λ col, length col = length convs) cols.
Proof.
  revert cols names. induction keys as [|key keys IH]; intros cols names Hspec; simpl.
  - intros [= <- <-]. by repeat split.
  - destruct (encode_key types cats convs key) as [[c n]|] eqn:Hkey; simpl; [| done].
    destruct (encode_keys types cats convs keys) as [[c' n']|] eqn:Hkeys; simpl; [| done].
    intros [= <- <-].
    destruct (Hspec key) as [Ht Hc]; [by left |].
    destruct (encode_key_shape types cats convs key c n Ht Hc Hkey) as (H1 & H2 & H3).
    destruct (IH c' n') as (H4 & H5 & H6);
      [intros k Hk; apply Hspec; by right | done |].
    rewrite !length_app. repeat split; [lia | lia | by apply Forall_app].
Qed.

Lemma transpose_rows (n : nat) (cols : matrix) :
  Forall (λ r, length r = length cols) (transpose n cols).
Proof.
  unfold transpose. apply Forall_fmap, Forall_forall. intros i _. simpl. apply length_fmap.
Qed.

Lemma ncols_transpose (n : nat) (cols : matrix) :
  0 < n → ncols (transpose n cols) = length cols.
Proof.
  intros Hn. destruct n as [|n]; [lia |]. unfold transpose. simpl. apply length_fmap.
Qed.

Lemma fit_transform_rows (X : matrix) :
  Forall (λ r, length r = ncols X) (fit_transform X).
Proof.
  unfold fit_transform.
  pose proof (transpose_rows (length X) (scale_column <$> transpose (ncols X) X)) as H.
  rewrite length_fmap, length_transpose in H. done.
Qed.


(** What a returning run of the encoding went through: either no record
    has a key and the filler is returned, or the keys gave at least one
    column, one name per column, and the columns were scaled. *)
Lemma encode_attributes_inv convs (X : matrix) (names : list string) :
  encode_attributes convs = Ok (X, names) → convs ≠ [] →
  (all_keys convs = ∅ ∧ X = zeros (length convs) 1 ∧ names = []) ∨
  (all_keys convs ≠ ∅ ∧ ∃ fvs : matrix,
     fvs ≠ [] ∧ length fvs = length names ∧
     Forall (λ col, length col = length convs) fvs ∧
     X = fit_transform (transpose (length convs) fvs)).
Proof.
  unfold encode_attributes. destruct convs as [|c0 convs']; [done |]. intros Henc _.
  revert Henc. generalize (c0 :: convs'). clear c0 convs'. intros convs.
  destruct (decide (all_keys convs = ∅)) as [Hempty|Hne].
  { intros [= <- <-]. by left. }
  pose proof (detect_types_spec convs (sorted_strings (all_keys convs))) as Hspec.
  destruct (detect_types convs (sorted_strings (all_keys convs))) as [types cats].
  destruct (encode_keys types cats convs _) as [[fvs names']|] eqn:Hkeys; [| done].
  simpl in Hspec.
  destruct (encode_keys_shape types cats convs (sorted_strings (all_keys convs))
              fvs names') as (Hlen & Hkeyn & Hcols); [| done |].
  { intros key Hkey. apply Hspec; [apply NoDup_sorted_strings | done]. }
  assert (fvs ≠ []) as Hfvs.
  { intros ->. simpl in Hlen.
    destruct (sorted_strings (all_keys convs)) as [|k ks] eqn:Hks; [| simpl in Hkeyn; lia].
    apply Hne. apply set_eq. intros k. rewrite <- elem_of_sorted_strings, Hks.
    split; [by intros ?%elem_of_nil | by intros ?%elem_of_empty]. }
  cbn [mbind]. destruct fvs as [|col fvs]; [done |].
  intros [= <- <-]. right. split; [done |]. by exists (col :: fvs).
Qed.

(** X5. When the attribute encoding returns, the matrix has one row per
    record and the rows have one width: the number of feature names, or 1
    when there is none (the zero filler column). *)
Theorem encode_attributes_shape convs (X : matrix) (names : list string) :
  encode_attributes convs = Ok (X, names) →
  length X = length convs ∧ Forall (λ r, length r = Nat.max 1 (length names)) X.
Proof.
  intros Henc. split; [by eapply encode_attributes_rows |].
  destruct (decide (convs = [])) as [->|Hconvs].
  { revert Henc. by intros [= <- <-]. }
  destruct (encode_attributes_inv _ X names Henc Hconvs) as
    [(_ & -> & ->)|(_ & fvs & Hne & Hlen & Hcols & ->)].
  { apply Forall_replicate. apply length_replicate. }
  eapply Forall_impl; [apply fit_transform_rows |]. intros r Hr. simpl in Hr.
  rewrite Hr, ncols_transpose by (destruct convs; [done | simpl; lia]).
  destruct fvs; [done |]. simpl in *. lia.
Qed.

(** X6. On a batch that is not empty, the encoding returns no feature name
    exactly when no record carries an attribute key, and the matrix is then
    one column of zeros: the second filler return, after the keys were
    encoded, is never the one taken when there are keys. *)
Theorem zero_filler_iff_no_keys convs (X : matrix) (names : list string) :
  convs ≠ [] → encode_attributes convs = Ok (X, names) →
  (names = [] ↔ all_keys convs = ∅) ∧
  (names = [] → X = zeros (length convs) 1).
Proof.
  intros Hconvs Henc.
  destruct (encode_attributes_inv _ X names Henc Hconvs) as
    [(Hk & -> & ->)|(Hk & fvs & Hne & Hlen & Hcols & ->)].
  - by split.
  - assert (names ≠ []) as Hnames.
    { intros ->. destruct fvs; [done | simpl in Hlen; lia]. }
    split; [split |]; done.
Qed.

End EncodingShape.

Lemma encode_attributes_shape_witness :
  ∃ X, encode_attributes categorical_batch = Ok (X, ["k=a"]) ∧
       length X = length categorical_batch ∧
       Forall (λ r, length r = Nat.max 1 (length ["k=a"])) X.
Proof.
  eexists. split; [reflexivity |].
  apply (encode_attributes_shape categorical_batch _ ["k=a"]). reflexivity.
Defined.

Lemma zero_filler_iff_no_keys_witness :
  plain_batch ≠ [] ∧
  ∃ X names, encode_attributes plain_batch = Ok (X, names) ∧
    (names = [] ↔ all_keys plain_batch = ∅) ∧
    (names = [] → X = zeros (length plain_batch) 1).
Proof.
  split; [done |]. eexists _, _. split; [reflexivity |].
  apply zero_filler_iff_no_keys; [done | reflexivity].
Defined.

Section GroupOrder.
Context {A : Type}.
Implicit Types (labels : list Z) (items : list A).

Lemma select_label_sublist (c : Z) labels items :
  select_label c labels items `sublist_of` items.
Proof.
  revert items. induction labels as [|l labels IH]; intros [|x items]; simpl;
    try apply sublist_nil_l.
  destruct (decide (l = c)); [by apply sublist_skip | by apply sublist_cons].
Qed.

Lemma length_remove_dups_le (l : list Z) : length (remove_dups l) ≤ length l.
Proof.
  induction l as [|x l IH]; simpl; [done |].
  destruct (decide_rel elem_of x l); simpl; lia.
Qed.

Lemma length_np_unique_le labels : length (np_unique labels) ≤ length labels.
Proof.
  unfold np_unique. rewrite merge_sort_Permutation. apply length_remove_dups_le.
Qed.

Lemma length_np_unique_pos labels : labels ≠ [] → 1 ≤ length (np_unique labels).
Proof.
  intros Hne. destruct labels as [|l labels]; [done |].
  assert (l ∈ np_unique (l :: labels)) as Hl by (apply elem_of_np_unique; by left).
  destruct (np_unique (l :: labels)); [by apply elem_of_nil in Hl | simpl; lia].
Qed.

(** The dictionary has one entry per distinct label. *)
Lemma group_map_size labels items :
  size (group_map labels items) = length (np_unique labels).
Proof.
  rewrite <- size_dom, group_map_dom, size_list_to_set, length_fmap; [done |].
  apply (NoDup_fmap_2 _), NoDup_np_unique.
Qed.

End GroupOrder.

Section RunShape.

Variable linkage_matrix : Type.
Variable linkage : list R → linkage_matrix.
Variable fcluster : linkage_matrix → Z → list Z.

Hypothesis fcluster_length : ∀ (y : list R) (n : nat) (k : Z),
  2 ≤ n → 2 * length y = n * (n - 1) → length (fcluster (linkage y) k) = n.

(** X9. On a valid batch the top-level clusters together hold each record
    once (their member lists add up to a rearrangement of the input ids),
    no cluster and no subcluster is empty, every cluster lists its members
    in input order, and every subcluster lists members of its own cluster in
    that cluster's order. *)
Theorem clusters_nonempty_in_order (convs : list conversation) (w : weights) (k1 k2 : Z) :
  valid_batch convs →
  ∃ r, perform_clustering linkage fcluster convs w k1 k2 = Ok r ∧
       cluster_members (high_level_clusters r) ≡ₚ conv_id <$> convs ∧
       (∀ c members, high_level_clusters r !! c = Some members →
          members ≠ [] ∧ members `sublist_of` (conv_id <$> convs)) ∧
       (∀ c m s members, subclusters r !! c = Some m → m !! s = Some members →
          members ≠ [] ∧
          ∃ top, high_level_clusters r !! c = Some top ∧ members `sublist_of` top).
Proof.
  intros (HN & Hdim & [[X names] Henc]).
  destruct (perform_clustering_spec _ linkage fcluster fcluster_length convs w k1 k2 X names
              HN Hdim Henc) as (labels & D & Hlab & HD & Hrun).
  assert (length labels = length (conv_id <$> convs)) as Hlen by (by rewrite length_fmap).
  eexists. split; [exact Hrun |]. simpl. split; [| split].
  - by apply group_map_members.
  - intros c members Hc. apply group_map_lookup_Some in Hc as (c0 & Hc0 & -> & ->).
    split; [by apply select_label_nonempty | apply select_label_sublist].
  - intros c m s members Hc Hs.
    destruct (decide (c ∈ (pretty <$> np_unique labels : list string))) as [Hin|Hnin].
    + apply list_elem_of_fmap in Hin as (c0 & -> & Hc0).
      rewrite (insert_loop_lookup
                 (λ c, group_map (inner_labels linkage fcluster D k2 labels c)
                         (select_label c labels (conv_id <$> convs)))) in Hc by done.
      injection Hc as <-. rewrite elem_of_np_unique in Hc0.
      apply group_map_lookup_Some in Hs as (s0 & Hs0 & -> & ->).
      assert (length (inner_labels linkage fcluster D k2 labels c0)
              = length (select_label c0 labels (conv_id <$> convs))) as Hin.
      { apply (length_inner_labels _ linkage fcluster fcluster_length);
          rewrite ?length_fmap; done. }
      split; [by apply select_label_nonempty |].
      eexists. split; [by apply group_map_lookup | apply select_label_sublist].
    + rewrite insert_loop_lookup_other in Hc; [done |].
      intros c0 Hc0 <-. apply Hnin. by apply list_elem_of_fmap_2.
Qed.

(** X10. On a valid batch of [N] records the run returns between 1 and [N]
    top-level clusters, and a top-level cluster of [M] records is split
    into between 1 and [M] subclusters. *)
Theorem cluster_counts_bounded (convs : list conversation) (w : weights) (k1 k2 : Z) :
  valid_batch convs →
  ∃ r, perform_clustering linkage fcluster convs w k1 k2 = Ok r ∧
       1 ≤ size (high_level_clusters r) ≤ length convs ∧
       ∀ c members, high_level_clusters r !! c = Some members →
         ∃ m, subclusters r !! c = Some m ∧ 1 ≤ size m ≤ length members.
Proof.
  intros (HN & Hdim & [[X names] Henc]).
  destruct (perform_clustering_spec _ linkage fcluster fcluster_length convs w k1 k2 X names
              HN Hdim Henc) as (labels & D & Hlab & HD & Hrun).
  assert (length labels = length (conv_id <$> convs)) as Hlen by (by rewrite length_fmap).
  eexists. split; [exact Hrun |]. simpl. split.
  - rewrite group_map_size. split.
    + apply length_np_unique_pos. intros ->. simpl in Hlab. lia.
    + rewrite <- Hlab. apply length_np_unique_le.
  - intros c members Hc. apply group_map_lookup_Some in Hc as (c0 & Hc0 & -> & ->).
    eexists. split.
    { apply (insert_loop_lookup
               (λ c, group_map (inner_labels linkage fcluster D k2 labels c)
                       (select_label c labels (conv_id <$> convs)))).
      by apply elem_of_np_unique. }
    assert (length (inner_labels linkage fcluster D k2 labels c0)
            = length (select_label c0 labels (conv_id <$> convs))) as Hin.
    { apply (length_inner_labels _ linkage fcluster fcluster_length);
        rewrite ?length_fmap; done. }
    rewrite group_map_size. split.
    + apply length_np_unique_pos. intros Hnil. rewrite Hnil in Hin. simpl in Hin.
      symmetry in Hin. apply length_zero_iff_nil in Hin.
      by apply (select_label_nonempty labels (conv_id <$> convs) c0).
    + rewrite <- Hin. apply length_np_unique_le.
Qed.

(** X11. A top-level cluster with a single record is not cut again: its
    subcluster dictionary has the one key ["0"], with that record. *)
Theorem singleton_cluster_kept_whole (convs : list conversation) (w : weights)
    (k1 k2 : Z) :
  valid_batch convs →
  ∃ r, perform_clustering linkage fcluster convs w k1 k2 = Ok r ∧
       ∀ c x, high_level_clusters r !! c = Some [x] →
         subclusters r !! c = Some {[ "0" := [x] ]}.
Proof.
  intros (HN & Hdim & [[X names] Henc]).
  destruct (perform_clustering_spec _ linkage fcluster fcluster_length convs w k1 k2 X names
              HN Hdim Henc) as (labels & D & Hlab & HD & Hrun).
  assert (length labels = length (conv_id <$> convs)) as Hlen by (by rewrite length_fmap).
  eexists. split; [exact Hrun |]. simpl.
  intros c x Hc. apply group_map_lookup_Some in Hc as (c0 & Hc0 & -> & Hx).
  rewrite (insert_loop_lookup
             (λ c, group_map (inner_labels linkage fcluster D k2 labels c)
                     (select_label c labels (conv_id <$> convs))))
    by (by apply elem_of_np_unique).
  f_equal. rewrite <- Hx. unfold inner_labels.
  rewrite (length_np_where_select labels (conv_id <$> convs) c0 Hlen), <- Hx. simpl.
  apply group_map_single.
Qed.

End RunShape.

Lemma clusters_nonempty_in_order_witness :
  ∃ r, perform_clustering toy_linkage toy_fcluster plain_batch default_weights 5 3 = Ok r ∧
       cluster_members (high_level_clusters r) ≡ₚ conv_id <$> plain_batch ∧
       (∀ c members, high_level_clusters r !! c = Some members →
          members ≠ [] ∧ members `sublist_of` (conv_id <$> plain_batch)) ∧
       (∀ c m s members, subclusters r !! c = Some m → m !! s = Some members →
          members ≠ [] ∧
          ∃ top, high_level_clusters r !! c = Some top ∧ members `sublist_of` top).
Proof.
  apply (clusters_nonempty_in_order _ toy_linkage toy_fcluster toy_fcluster_length).
  valid_sample.
Defined.

Lemma cluster_counts_bounded_witness :
  ∃ r, perform_clustering toy_linkage toy_fcluster plain_batch default_weights 5 3 = Ok r ∧
       1 ≤ size (high_level_clusters r) ≤ length plain_batch ∧
       ∀ c members, high_level_clusters r !! c = Some members →
         ∃ m, subclusters r !! c = Some m ∧ 1 ≤ size m ≤ length members.
Proof.
  apply (cluster_counts_bounded _ toy_linkage toy_fcluster toy_fcluster_length).
  valid_sample.
Defined.

Lemma singleton_cluster_kept_whole_witness :
  ∃ r, perform_clustering toy_linkage toy_fcluster plain_batch default_weights 5 3 = Ok r ∧
       ∀ c x, high_level_clusters r !! c = Some [x] →
         subclusters r !! c = Some {[ "0" := [x] ]}.
Proof.
  apply (singleton_cluster_kept_whole _ toy_linkage toy_fcluster toy_fcluster_length).
  valid_sample.
Defined.

Section SimilarityShape.

Variable linkage_matrix : Type.
Variable linkage : list R → linkage_matrix.
Variable fcluster : linkage_matrix → Z → list Z.

Hypothesis fcluster_length : ∀ (y : list R) (n : nat) (k : Z),
  2 ≤ n → 2 * length y = n * (n - 1) → length (fcluster (linkage y) k) = n.

(** X12. On a valid batch of [N] records the returned similarity matrix is
    [N] by [N], and every entry lies between -1 and 1 up to 1e-6, so every
    distance [1 - similarity] handed to the hierarchy lies between 0 and 2
    up to 1e-6. *)
Theorem similarity_matrix_shape_range (convs : list conversation) (w : weights)
    (k1 k2 : Z) :
  valid_batch convs →
  ∃ r, perform_clustering linkage fcluster convs w k1 k2 = Ok r ∧
       square (length convs) (similarity_matrix r) ∧
       ∀ i j,
         (-1 - / 10 ^ 6 <= entry (similarity_matrix r) i j <= 1 + / 10 ^ 6)%R ∧
         (- / 10 ^ 6 <= 1 - entry (similarity_matrix r) i j <= 2 + / 10 ^ 6)%R.
Proof.
  intros (HN & Hdim & [[X names] Henc]).
  destruct (perform_clustering_spec _ linkage fcluster fcluster_length convs w k1 k2 X names
              HN Hdim Henc) as (labels & D & Hlab & HD & Hrun).
  eexists. split; [exact Hrun |]. simpl.
  set (V := create_weighted_vectors _ _ _ _).
  assert (length V = length convs) as HV.
  { unfold V. rewrite length_create_weighted_vectors; rewrite !length_fmap; try done.
    by eapply encode_attributes_rows. }
  split.
  - rewrite <- HV. split; [apply length_cosine_similarity | apply cosine_similarity_square].
  - intros i j. pose proof (cosine_similarity_entry_range V i j) as H.
    simpl. lra.
Qed.

End SimilarityShape.

Lemma similarity_matrix_shape_range_witness :
  ∃ r, perform_clustering toy_linkage toy_fcluster plain_batch default_weights 5 3 = Ok r ∧
       square (length plain_batch) (similarity_matrix r) ∧
       ∀ i j,
         (-1 - / 10 ^ 6 <= entry (similarity_matrix r) i j <= 1 + / 10 ^ 6)%R ∧
         (- / 10 ^ 6 <= 1 - entry (similarity_matrix r) i j <= 2 + / 10 ^ 6)%R.
Proof.
  apply (similarity_matrix_shape_range _ toy_linkage toy_fcluster toy_fcluster_length).
  valid_sample.
Defined.

(** X16. The condensed distance vector handed to the hierarchy has
    [N (N - 1) / 2] entries for [N] composite vectors, the strict upper
    triangle of the distance matrix. *)
Theorem condensed_distance_length (V : matrix) :
  2 * length (squareform ((λ r : list R, (λ x, 1 - x)%R <$> r) <$> cosine_similarity V))
  = length V * (length V - 1).
Proof. apply length_squareform, square_distance. Qed.
